(** * BusTub buffer pool: LRU replacer and buffer pool manager

    A shallow embedding of [src/buffer/lru_replacer.cpp] and
    [src/buffer/buffer_pool_manager.cpp].  Member functions become
    computations in a state monad over the object they belong to; the
    outcome of a call records, besides a normal return, the two ways a call
    can fail to return normally in a single thread of control: waiting
    forever on a [std::mutex] that is never released, and undefined
    behaviour (an index outside the frame array, signed overflow). *)

From Stdlib Require Import ZArith Strings.Byte.
From stdpp Require Import gmap list.

Local Open Scope Z_scope.

(** ** Outcomes and the state monad *)

Inductive outcome (St A : Type) : Type :=
  | Returns (a : A) (s : St)
  | Blocks
  | Undefined.
Arguments Returns {St A} a s.
Arguments Blocks {St A}.
Arguments Undefined {St A}.

Definition M (St A : Type) : Type := St -> outcome St A.

Definition ret {St A} (a : A) : M St A := fun s => Returns a s.

Definition bind {St A B} (m : M St A) (k : A -> M St B) : M St B :=
  fun s => match m s with
           | Returns a s' => k a s'
           | Blocks => Blocks
           | Undefined => Undefined
           end.

Definition get {St} : M St St := fun s => Returns s s.
Definition gets {St A} (f : St -> A) : M St A := fun s => Returns (f s) s.
Definition modify {St} (f : St -> St) : M St unit := fun s => Returns tt (f s).
Definition undefined {St A} : M St A := fun _ => Undefined.

Declare Scope cpp_scope.
Delimit Scope cpp_scope with cpp.
Notation "'let*' x ':=' m 'in' k" := (bind m (fun x => k))
  (at level 10, x name, m at level 100, k at level 200) : cpp_scope.
Notation "m ';;;' k" := (bind m (fun _ => k))
  (at level 100, k at level 200, right associativity) : cpp_scope.
Local Open Scope cpp_scope.

(** A call made on a member object: run [m] on the field read by [proj] and
    store the field back with [inj]. *)
Definition on_field {St F A} (proj : St -> F) (inj : F -> St -> St)
    (m : M F A) : M St A :=
  fun s => match m (proj s) with
           | Returns a f' => Returns a (inj f' s)
           | Blocks => Blocks
           | Undefined => Undefined
           end.

(** ** Basic types *)

(** [page_id_t] and [frame_id_t] are both [typedef]s of a 32-bit [int]. *)
Abbreviation page_id_t := Z (only parsing).
Abbreviation frame_id_t := Z (only parsing).

(** Modelled from the spec: the constants of [common/config.h] are not part
    of the sources at hand.  The invalid page id is canonically [-1] and a
    page has 4096 bytes. *)
Definition INVALID_PAGE_ID : page_id_t := -1.
Definition PAGE_SIZE : nat := 4096.

(** [int] is 32 bits wide. *)
Definition INT_MAX : Z := 2147483647.

(** [static_cast<int>] of an unsigned value. *)
Definition static_cast_int (z : Z) : Z :=
  (z + 2147483648) mod 4294967296 - 2147483648.

(** ** [std::mutex] *)

Inductive mutex : Type := Unlocked | Locked.

(** [lock()] returns once the mutex is free; on a mutex that nobody will
    release the caller waits forever. *)
Definition mutex_lock : M mutex unit :=
  fun m => match m with
           | Unlocked => Returns tt Locked
           | Locked => Blocks
           end.

(** [unlock()] of a mutex that is not held is undefined. *)
Definition mutex_unlock : M mutex unit :=
  fun m => match m with
           | Locked => Returns tt Unlocked
           | Unlocked => Undefined
           end.

(** ** The LRU replacer ([lru_replacer.cpp]) *)

Module LRUReplacer.

(** Modelled from the spec: the member declarations are in
    [buffer/lru_replacer.h], which is not part of the sources at hand.  The
    replacer keeps an ordered sequence of frame ids, oldest at the head
    ([victim_queue], used as a [std::list]), a membership set
    ([frame_in_replacer], used through [count], [insert] and [erase]), its
    capacity and its own mutex. *)
Record t : Type := mk {
  max_pages : nat;
  victim_queue : list frame_id_t;
  frame_in_replacer : gset frame_id_t;
  replacer_mutex : mutex
}.

Definition set_victim_queue (q : list frame_id_t) (r : t) : t :=
  mk (max_pages r) q (frame_in_replacer r) (replacer_mutex r).
Definition set_frame_in_replacer (g : gset frame_id_t) (r : t) : t :=
  mk (max_pages r) (victim_queue r) g (replacer_mutex r).
Definition set_replacer_mutex (m : mutex) (r : t) : t :=
  mk (max_pages r) (victim_queue r) (frame_in_replacer r) m.

Definition lock : M t unit := on_field replacer_mutex set_replacer_mutex mutex_lock.
Definition unlock : M t unit := on_field replacer_mutex set_replacer_mutex mutex_unlock.

(** [LRUReplacer::LRUReplacer(num_pages)] *)
Definition new (num_pages : nat) : t := mk num_pages [] ∅ Unlocked.

(** [LRUReplacer::Victim]: the [bool] result and the out-parameter are one
    [option]. *)
Definition Victim : M t (option frame_id_t) :=
  lock ;;;
  let* q := gets victim_queue in
  match q with
  | [] => unlock ;;; ret None
  | front :: rest =>
      modify (fun r => set_frame_in_replacer (frame_in_replacer r ∖ {[front]}) r) ;;;
      modify (set_victim_queue rest) ;;;
      unlock ;;;
      ret (Some front)
  end.

(** The loop of [Pin]: walk the list up to the first element equal to
    [frame_id] and erase it there; [None] when the loop runs to the end. *)
Fixpoint erase_first (frame_id : frame_id_t) (q : list frame_id_t)
    : option (list frame_id_t) :=
  match q with
  | [] => None
  | x :: rest =>
      if decide (x = frame_id) then Some rest
      else option_map (cons x) (erase_first frame_id rest)
  end.

(** [LRUReplacer::Pin] *)
Definition Pin (frame_id : frame_id_t) : M t unit :=
  lock ;;;
  let* members := gets frame_in_replacer in
  if decide (frame_id ∈ members) then
    let* q := gets victim_queue in
    match erase_first frame_id q with
    | Some q' =>
        modify (set_victim_queue q') ;;;
        modify (fun r => set_frame_in_replacer (frame_in_replacer r ∖ {[frame_id]}) r) ;;;
        unlock
    | None => unlock
    end
  else unlock.

(** [LRUReplacer::Unpin] *)
Definition Unpin (frame_id : frame_id_t) : M t unit :=
  lock ;;;
  let* members := gets frame_in_replacer in
  if decide (frame_id ∈ members) then unlock
  else
    let* q := gets victim_queue in
    let* cap := gets max_pages in
    (if decide (length q < cap)%nat then
       modify (fun r => set_frame_in_replacer ({[frame_id]} ∪ frame_in_replacer r) r) ;;;
       modify (fun r => set_victim_queue (victim_queue r ++ [frame_id]) r)
     else ret tt) ;;;
    unlock.

(** [LRUReplacer::Size] *)
Definition Size : M t nat :=
  lock ;;;
  let* size := gets (fun r => length (victim_queue r)) in
  unlock ;;;
  ret size.

End LRUReplacer.

(** ** Frames ([Page]) *)

(** Modelled from the spec: [storage/page/page.h] is not part of the sources
    at hand.  A frame is a byte buffer of [PAGE_SIZE] bytes with the id of
    the resident page, a pin count and a dirty bit; a fresh frame is zeroed,
    holds no page and is neither pinned nor dirty. *)
Record Page : Type := mkPage {
  data_ : list byte;
  page_id_ : page_id_t;
  pin_count_ : Z;
  is_dirty_ : bool
}.

Definition set_data (d : list byte) (p : Page) : Page :=
  mkPage d (page_id_ p) (pin_count_ p) (is_dirty_ p).
Definition set_page_id (i : page_id_t) (p : Page) : Page :=
  mkPage (data_ p) i (pin_count_ p) (is_dirty_ p).
Definition set_pin_count (c : Z) (p : Page) : Page :=
  mkPage (data_ p) (page_id_ p) c (is_dirty_ p).
Definition set_is_dirty (b : bool) (p : Page) : Page :=
  mkPage (data_ p) (page_id_ p) (pin_count_ p) b.

Definition zero_bytes : list byte := replicate PAGE_SIZE x00.

Definition new_Page : Page := mkPage zero_bytes INVALID_PAGE_ID 0 false.

(** ** The disk manager *)

Inductive disk_call : Type :=
  | WritePageCall (page_id : page_id_t) (data : list byte)
  | ReadPageCall (page_id : page_id_t)
  | AllocatePageCall (page_id : page_id_t)
  | DeallocatePageCall (page_id : page_id_t).

(** Modelled from the spec: the disk manager is an external collaborator
    whose code is not part of the sources at hand.  It reads and writes
    pages by id, hands out fresh ids and deallocates ids, and every call
    succeeds.  The model stores the persisted bytes of each page (a page
    never written reads as zeroes), the next id to hand out, and the calls
    received, most recent first. *)
Record DiskManager : Type := mkDisk {
  disk_pages : gmap page_id_t (list byte);
  next_page_id : page_id_t;
  disk_calls : list disk_call
}.

Module Disk.

Definition new : DiskManager := mkDisk ∅ 0 [].

Definition WritePage (page_id : page_id_t) (data : list byte) : M DiskManager unit :=
  modify (fun d => mkDisk (<[page_id := data]> (disk_pages d)) (next_page_id d)
                          (WritePageCall page_id data :: disk_calls d)).

Definition ReadPage (page_id : page_id_t) : M DiskManager (list byte) :=
  modify (fun d => mkDisk (disk_pages d) (next_page_id d)
                          (ReadPageCall page_id :: disk_calls d)) ;;;
  gets (fun d => default zero_bytes (disk_pages d !! page_id)).

Definition AllocatePage : M DiskManager page_id_t :=
  let* id := gets next_page_id in
  modify (fun d => mkDisk (disk_pages d) (id + 1)
                          (AllocatePageCall id :: disk_calls d)) ;;;
  ret id.

Definition DeallocatePage (page_id : page_id_t) : M DiskManager unit :=
  modify (fun d => mkDisk (disk_pages d) (next_page_id d)
                          (DeallocatePageCall page_id :: disk_calls d)).

End Disk.

(** ** The buffer pool manager ([buffer_pool_manager.cpp]) *)

(** Modelled from the spec: the member declarations are in
    [buffer/buffer_pool_manager.h], which is not part of the sources at
    hand.  The state is the pool size, the frame array, the page table from
    page ids to frame ids, the free list, the replacer, the disk manager
    and one latch.  The log manager is held and never used. *)
Record BufferPoolManager : Type := mkBPM {
  pool_size_ : nat;
  pages_ : list Page;
  disk_manager_ : DiskManager;
  replacer_ : LRUReplacer.t;
  page_table_ : gmap page_id_t frame_id_t;
  free_list_ : list frame_id_t;
  latch_ : mutex
}.

Definition set_pages (x : list Page) (b : BufferPoolManager) : BufferPoolManager :=
  mkBPM (pool_size_ b) x (disk_manager_ b) (replacer_ b) (page_table_ b)
        (free_list_ b) (latch_ b).
Definition set_disk_manager (x : DiskManager) (b : BufferPoolManager) : BufferPoolManager :=
  mkBPM (pool_size_ b) (pages_ b) x (replacer_ b) (page_table_ b)
        (free_list_ b) (latch_ b).
Definition set_replacer (x : LRUReplacer.t) (b : BufferPoolManager) : BufferPoolManager :=
  mkBPM (pool_size_ b) (pages_ b) (disk_manager_ b) x (page_table_ b)
        (free_list_ b) (latch_ b).
Definition set_page_table (x : gmap page_id_t frame_id_t) (b : BufferPoolManager)
    : BufferPoolManager :=
  mkBPM (pool_size_ b) (pages_ b) (disk_manager_ b) (replacer_ b) x
        (free_list_ b) (latch_ b).
Definition set_free_list (x : list frame_id_t) (b : BufferPoolManager) : BufferPoolManager :=
  mkBPM (pool_size_ b) (pages_ b) (disk_manager_ b) (replacer_ b) (page_table_ b)
        x (latch_ b).
Definition set_latch (x : mutex) (b : BufferPoolManager) : BufferPoolManager :=
  mkBPM (pool_size_ b) (pages_ b) (disk_manager_ b) (replacer_ b) (page_table_ b)
        (free_list_ b) x.

(** [pages_[frame_id]]: the frame at an index, if the index is inside the
    array. *)
Definition frame_at (frame_id : frame_id_t) (pages : list Page) : option Page :=
  if decide (0 <= frame_id) then pages !! Z.to_nat frame_id else None.

Module BPM.

Definition latch_lock : M BufferPoolManager unit :=
  on_field latch_ set_latch mutex_lock.
Definition latch_unlock : M BufferPoolManager unit :=
  on_field latch_ set_latch mutex_unlock.
Definition replacer {A} (m : M LRUReplacer.t A) : M BufferPoolManager A :=
  on_field replacer_ set_replacer m.
Definition disk_manager {A} (m : M DiskManager A) : M BufferPoolManager A :=
  on_field disk_manager_ set_disk_manager m.

(** Reading through [&pages_[frame_id]]; an index outside the array is
    undefined behaviour. *)
Definition frame (frame_id : frame_id_t) : M BufferPoolManager Page :=
  fun b => match frame_at frame_id (pages_ b) with
           | Some p => Returns p b
           | None => Undefined
           end.

(** Writing through [&pages_[frame_id]]. *)
Definition frame_set (frame_id : frame_id_t) (f : Page -> Page)
    : M BufferPoolManager unit :=
  let* p := frame frame_id in
  modify (fun b => set_pages (<[Z.to_nat frame_id := f p]> (pages_ b)) b).

(** [pin_count_++] on an [int]: overflow is undefined behaviour. *)
Definition frame_pin_count_incr (frame_id : frame_id_t) : M BufferPoolManager unit :=
  let* p := frame frame_id in
  if decide (pin_count_ p < INT_MAX)
  then frame_set frame_id (set_pin_count (pin_count_ p + 1))
  else undefined.

(** [BufferPoolManager::BufferPoolManager(pool_size, disk_manager, log_manager)] *)
Definition new (pool_size : nat) (disk : DiskManager) : BufferPoolManager :=
  mkBPM pool_size
        (replicate pool_size new_Page)
        disk
        (LRUReplacer.new pool_size)
        ∅
        (map (fun i => static_cast_int (Z.of_nat i)) (seq 0 pool_size))
        Unlocked.

(** The choice of a frame, written out twice in the source ([FetchPageImpl]
    and [NewPageImpl]): the head of the free list if there is one, else a
    victim of the replacer.  What happens when there is neither is left to
    the caller, where the two functions differ. *)
Definition take_frame : M BufferPoolManager (option frame_id_t) :=
  let* free := gets free_list_ in
  match free with
  | front :: rest => modify (set_free_list rest) ;;; ret (Some front)
  | [] => replacer LRUReplacer.Victim
  end.

(** [BufferPoolManager::FetchPageImpl]: the result is the index of the frame
    the returned pointer refers to, [None] for [nullptr]. *)
Definition FetchPageImpl (page_id : page_id_t) : M BufferPoolManager (option frame_id_t) :=
  latch_lock ;;;
  let* table := gets page_table_ in
  match table !! page_id with
  | Some frameId =>
      replacer (LRUReplacer.Pin frameId) ;;;
      frame_pin_count_incr frameId ;;;
      latch_unlock ;;;
      ret (Some frameId)
  | None =>
      let* taken := take_frame in
      match taken with
      | None => ret None
      | Some new_frame_id =>
          let* new_frame := frame new_frame_id in
          (if is_dirty_ new_frame
           then disk_manager (Disk.WritePage (page_id_ new_frame) (data_ new_frame))
           else ret tt) ;;;
          modify (fun b => set_page_table (delete (page_id_ new_frame) (page_table_ b)) b) ;;;
          modify (fun b => set_page_table (<[page_id := new_frame_id]> (page_table_ b)) b) ;;;
          let* bytes := disk_manager (Disk.ReadPage page_id) in
          frame_set new_frame_id (set_data bytes) ;;;
          frame_set new_frame_id (set_is_dirty false) ;;;
          frame_set new_frame_id (set_pin_count 1) ;;;
          frame_set new_frame_id (set_page_id page_id) ;;;
          replacer (LRUReplacer.Pin new_frame_id) ;;;
          latch_unlock ;;;
          ret (Some new_frame_id)
      end
  end.

(** [page_table_[page_id]] read through [operator[]] of
    [std::unordered_map]: a missing key is inserted with the
    value-initialised frame id [0]. *)
Definition page_table_subscript (page_id : page_id_t) : M BufferPoolManager frame_id_t :=
  let* table := gets page_table_ in
  match table !! page_id with
  | Some frame_id => ret frame_id
  | None =>
      modify (fun b => set_page_table (<[page_id := 0]> (page_table_ b)) b) ;;;
      ret 0
  end.

(** [BufferPoolManager::UnpinPageImpl] *)
Definition UnpinPageImpl (page_id : page_id_t) (is_dirty : bool)
    : M BufferPoolManager bool :=
  latch_lock ;;;
  let* frame_id := page_table_subscript page_id in
  frame_set frame_id (set_is_dirty is_dirty) ;;;
  let* fr := frame frame_id in
  if decide (pin_count_ fr <= 0) then
    latch_unlock ;;;
    ret false
  else
    frame_set frame_id (set_pin_count (pin_count_ fr - 1)) ;;;
    let* fr' := frame frame_id in
    (if decide (pin_count_ fr' = 0)
     then replacer (LRUReplacer.Unpin frame_id)
     else ret tt) ;;;
    latch_unlock ;;;
    ret true.

(** [BufferPoolManager::FlushPageImpl] *)
Definition FlushPageImpl (page_id : page_id_t) : M BufferPoolManager bool :=
  latch_lock ;;;
  if decide (page_id = INVALID_PAGE_ID) then ret false
  else
    let* table := gets page_table_ in
    match table !! page_id with
    | None => ret false
    | Some frame_id =>
        let* fr := frame frame_id in
        disk_manager (Disk.WritePage page_id (data_ fr)) ;;;
        frame_set frame_id (set_is_dirty false) ;;;
        latch_unlock ;;;
        ret true
    end.

(** [BufferPoolManager::NewPageImpl]: the result pairs the id stored through
    the out-parameter with the index of the returned frame; [None] is
    [nullptr], in which case the out-parameter is not written. *)
Definition NewPageImpl : M BufferPoolManager (option (page_id_t * frame_id_t)) :=
  latch_lock ;;;
  let* taken := take_frame in
  match taken with
  | None =>
      latch_unlock ;;;
      ret None
  | Some frame_id =>
      let* page_id := disk_manager Disk.AllocatePage in
      let* fr := frame frame_id in
      (if decide (page_id_ fr <> INVALID_PAGE_ID)
       then disk_manager (Disk.WritePage (page_id_ fr) (data_ fr))
       else ret tt) ;;;
      modify (fun b => set_page_table (delete (page_id_ fr) (page_table_ b)) b) ;;;
      frame_set frame_id (set_is_dirty false) ;;;
      frame_set frame_id (set_pin_count 1) ;;;
      frame_set frame_id (set_page_id page_id) ;;;
      replacer (LRUReplacer.Pin frame_id) ;;;
      modify (fun b => set_page_table (<[page_id := frame_id]> (page_table_ b)) b) ;;;
      frame_set frame_id (set_data zero_bytes) ;;;
      latch_unlock ;;;
      ret (Some (page_id, frame_id))
  end.

(** [BufferPoolManager::DeletePageImpl] *)
Definition DeletePageImpl (page_id : page_id_t) : M BufferPoolManager bool :=
  latch_lock ;;;
  let* table := gets page_table_ in
  match table !! page_id with
  | None =>
      latch_unlock ;;;
      ret true
  | Some _ =>
      let* frame_id := page_table_subscript page_id in
      let* fr := frame frame_id in
      if decide (pin_count_ fr > 0) then
        latch_unlock ;;;
        ret false
      else
        disk_manager (Disk.DeallocatePage page_id) ;;;
        modify (fun b => set_page_table (delete page_id (page_table_ b)) b) ;;;
        modify (fun b => set_free_list (free_list_ b ++ [frame_id]) b) ;;;
        frame_set frame_id (set_page_id INVALID_PAGE_ID) ;;;
        frame_set frame_id (set_is_dirty false) ;;;
        latch_unlock ;;;
        ret true
  end.

(** The body of the loop of [FlushAllPagesImpl] at index [i]. *)
Definition flush_frame (i : nat) : M BufferPoolManager unit :=
  let* fr := frame (Z.of_nat i) in
  if decide (page_id_ fr = INVALID_PAGE_ID) then ret tt
  else
    disk_manager (Disk.WritePage (page_id_ fr) (data_ fr)) ;;;
    frame_set (Z.of_nat i) (set_is_dirty false).

Fixpoint for_each (body : nat -> M BufferPoolManager unit) (indices : list nat)
    : M BufferPoolManager unit :=
  match indices with
  | [] => ret tt
  | i :: rest => body i ;;; for_each body rest
  end.

(** [BufferPoolManager::FlushAllPagesImpl] *)
Definition FlushAllPagesImpl : M BufferPoolManager unit :=
  let* n := gets pool_size_ in
  for_each flush_frame (seq 0 n).

End BPM.

(** ** Sequences of calls *)

(** One public operation that returns, taking the pool from one state to
    the next. *)
Inductive step : BufferPoolManager -> BufferPoolManager -> Prop :=
  | step_fetch_page page_id r s s' :
      BPM.FetchPageImpl page_id s = Returns r s' -> step s s'
  | step_unpin_page page_id is_dirty r s s' :
      BPM.UnpinPageImpl page_id is_dirty s = Returns r s' -> step s s'
  | step_flush_page page_id r s s' :
      BPM.FlushPageImpl page_id s = Returns r s' -> step s s'
  | step_new_page r s s' :
      BPM.NewPageImpl s = Returns r s' -> step s s'
  | step_delete_page page_id r s s' :
      BPM.DeletePageImpl page_id s = Returns r s' -> step s s'.

(** The states a pool of [pool_size] frames over a fresh disk can be in
    between operations. *)
Inductive reachable (pool_size : nat) : BufferPoolManager -> Prop :=
  | reachable_new : reachable pool_size (BPM.new pool_size Disk.new)
  | reachable_step s s' :
      reachable pool_size s -> step s s' -> reachable pool_size s'.

(** ** State predicates *)

(** [frame_id] is the image of some page id in the page table. *)
Definition in_page_table (frame_id : frame_id_t) (s : BufferPoolManager) : Prop :=
  exists page_id, page_table_ s !! page_id = Some frame_id.

(** [frame_id] is in the membership set of the replacer. *)
Definition evictable (frame_id : frame_id_t) (s : BufferPoolManager) : Prop :=
  frame_id ∈ LRUReplacer.frame_in_replacer (replacer_ s).

(** The frame exists and nobody holds a pin on it. *)
Definition unpinned (frame_id : frame_id_t) (s : BufferPoolManager) : Prop :=
  exists fr, frame_at frame_id (pages_ s) = Some fr /\ pin_count_ fr = 0.

(** The invariant relating the replacer to the pin counts. *)
Definition evictable_iff_unpinned (s : BufferPoolManager) : Prop :=
  forall frame_id,
    evictable frame_id s <-> in_page_table frame_id s /\ unpinned frame_id s.

(** No call is in progress: both mutexes are free. *)
Definition idle (s : BufferPoolManager) : Prop :=
  latch_ s = Unlocked /\ LRUReplacer.replacer_mutex (replacer_ s) = Unlocked.

(** Every frame id the pool can follow (through the page table, the head of
    the free list or the head of the replacer's sequence) is an index of the
    frame array, and no pin count is about to overflow. *)
Definition frames_in_range (s : BufferPoolManager) : Prop :=
  (forall page_id frame_id,
      page_table_ s !! page_id = Some frame_id ->
      exists fr, frame_at frame_id (pages_ s) = Some fr /\ pin_count_ fr < INT_MAX)
  /\ Forall (fun f => is_Some (frame_at f (pages_ s))) (free_list_ s)
  /\ Forall (fun f => is_Some (frame_at f (pages_ s)))
            (LRUReplacer.victim_queue (replacer_ s)).

(** The replacer's sequence has no duplicates and lists exactly the members
    of its set. *)
Definition consistent (r : LRUReplacer.t) : Prop :=
  NoDup (LRUReplacer.victim_queue r)
  /\ forall f, f ∈ LRUReplacer.frame_in_replacer r <-> f ∈ LRUReplacer.victim_queue r.

(** A computation on the pool that keeps the replacer consistent. *)
Definition keeps {A} (m : M BufferPoolManager A) : Prop :=
  forall s a s', m s = Returns a s' ->
    consistent (replacer_ s) -> consistent (replacer_ s').

(** A write of [page_id] reached the disk manager. *)
Definition wrote_page (page_id : page_id_t) (d : DiskManager) : Prop :=
  exists data, WritePageCall page_id data ∈ disk_calls d.

(** ** A pool of one frame

    The states a pool of one frame over a fresh disk goes through in the
    call sequences used below, written out field by field.  Page 0 is the
    first page the disk manager hands out; it always lands in frame 0. *)

Definition one_frame (fr : Page) (disk : DiskManager) (queue : list frame_id_t)
    (table : gmap page_id_t frame_id_t) (free : list frame_id_t) (latch : mutex)
    : BufferPoolManager :=
  mkBPM 1 [fr] disk (LRUReplacer.mk 1 queue (list_to_set queue) Unlocked)
        table free latch.

(** The disk manager after it handed out page 0. *)
Definition disk_one_allocated : DiskManager := mkDisk ∅ 1 [AllocatePageCall 0].

(** Freshly constructed. *)
Definition pool1 : BufferPoolManager :=
  one_frame new_Page Disk.new [] ∅ [0] Unlocked.

(** After [new_page]: page 0 in frame 0, pinned once, clean. *)
Definition pool1_pinned : BufferPoolManager :=
  one_frame (mkPage zero_bytes 0 1 false) disk_one_allocated [] {[0 := 0]} [] Unlocked.

(** After [new_page; fetch_page 0]: pinned twice. *)
Definition pool1_pinned_twice : BufferPoolManager :=
  one_frame (mkPage zero_bytes 0 2 false) disk_one_allocated [] {[0 := 0]} [] Unlocked.

(** After [new_page; fetch_page 0; unpin_page 0 true]: one pin left, dirty. *)
Definition pool1_pinned_dirty : BufferPoolManager :=
  one_frame (mkPage zero_bytes 0 1 true) disk_one_allocated [] {[0 := 0]} [] Unlocked.

(** After [new_page; unpin_page 0 false]: page 0 clean and evictable. *)
Definition pool1_unpinned : BufferPoolManager :=
  one_frame (mkPage zero_bytes 0 0 false) disk_one_allocated [0] {[0 := 0]} [] Unlocked.

(** After [new_page; unpin_page 0 true]: page 0 dirty and evictable. *)
Definition pool1_unpinned_dirty : BufferPoolManager :=
  one_frame (mkPage zero_bytes 0 0 true) disk_one_allocated [0] {[0 := 0]} [] Unlocked.

(** After [new_page; unpin_page 0 false; delete_page 0]. *)
Definition pool1_deleted : BufferPoolManager :=
  one_frame (mkPage zero_bytes INVALID_PAGE_ID 0 false)
            (mkDisk ∅ 1 [DeallocatePageCall 0; AllocatePageCall 0])
            [0] ∅ [0] Unlocked.

(** After [new_page; unpin_page 0 false; new_page]: page 1 took frame 0. *)
Definition pool1_replaced : BufferPoolManager :=
  one_frame (mkPage zero_bytes 1 1 false)
            (mkDisk {[0 := zero_bytes]} 2
                    [WritePageCall 0 zero_bytes; AllocatePageCall 1; AllocatePageCall 0])
            [] {[1 := 0]} [] Unlocked.

(** After [new_page; unpin_page 0 b; fetch_page 5] when the frame is clean
    at the time of the fetch: page 5 took frame 0 and nothing was written. *)
Definition pool1_refetched : BufferPoolManager :=
  one_frame (mkPage zero_bytes 5 1 false)
            (mkDisk ∅ 1 [ReadPageCall 5; AllocatePageCall 0])
            [] {[5 := 0]} [] Unlocked.

(** After [unpin_page 7 true] on the fresh pool. *)
Definition pool1_phantom : BufferPoolManager :=
  one_frame (mkPage zero_bytes INVALID_PAGE_ID 0 true) Disk.new [] {[7 := 0]} [0] Unlocked.

(** After [new_page; unpin_page 7 true]. *)
Definition pool1_phantom_unpinned : BufferPoolManager :=
  one_frame (mkPage zero_bytes 0 0 true) disk_one_allocated [0]
            (<[7 := 0]> {[0 := 0]}) [] Unlocked.

(** ** Calls in sequence on the replacer *)

(** [Unpin] of each frame of a list, first to last. *)
Fixpoint unpin_each (frames : list frame_id_t) : M LRUReplacer.t unit :=
  match frames with
  | [] => ret tt
  | f :: rest => LRUReplacer.Unpin f ;;; unpin_each rest
  end.

(** Up to [n] calls of [Victim], stopping at the first that finds nothing;
    the result lists the victims in the order they were handed out. *)
Fixpoint victims (n : nat) : M LRUReplacer.t (list frame_id_t) :=
  match n with
  | O => ret []
  | S k =>
      let* v := LRUReplacer.Victim in
      match v with
      | None => ret []
      | Some f =>
          let* rest := victims k in
          ret (f :: rest)
      end
  end.

(** ** Well-formed pools *)

(** What every pool of [n] frames satisfies between operations: the frame
    array and the capacity of the replacer have [n] entries, the replacer
    is not in use and consistent, it holds at most [n] frames, every frame
    it holds exists and carries no pin, every frame id in the page table or
    on the free list is an index of the frame array, and no pin count is
    negative. *)
Record well_formed (n : nat) (s : BufferPoolManager) : Prop := {
  wf_pool_size : pool_size_ s = n;
  wf_pages : length (pages_ s) = n;
  wf_replacer_mutex : LRUReplacer.replacer_mutex (replacer_ s) = Unlocked;
  wf_max_pages : LRUReplacer.max_pages (replacer_ s) = n;
  wf_consistent : consistent (replacer_ s);
  wf_capacity : (length (LRUReplacer.victim_queue (replacer_ s)) <= n)%nat;
  wf_evictable : forall f, evictable f s -> unpinned f s;
  wf_page_table :
    forall page_id f, page_table_ s !! page_id = Some f ->
                      is_Some (frame_at f (pages_ s));
  wf_free_list : Forall (fun f => is_Some (frame_at f (pages_ s))) (free_list_ s);
  wf_pin_counts : Forall (fun fr => 0 <= pin_count_ fr) (pages_ s)
}.

(** ** Words for the results of the operations *)

(** The frame [FetchPageImpl] and [NewPageImpl] take when they need one:
    the head of the free list, else the head of the replacer's sequence. *)
Definition chosen_frame (s : BufferPoolManager) : option frame_id_t :=
  match free_list_ s with
  | f :: _ => Some f
  | [] => head (LRUReplacer.victim_queue (replacer_ s))
  end.

(** The replacer with frame [f] taken out of its sequence and its set. *)
Definition without (f : frame_id_t) (r : LRUReplacer.t) : LRUReplacer.t :=
  LRUReplacer.mk (LRUReplacer.max_pages r)
                 (filter (fun x => x <> f) (LRUReplacer.victim_queue r))
                 (LRUReplacer.frame_in_replacer r ∖ {[f]})
                 Unlocked.

(** The disk manager after a write of [data] to [page_id]. *)
Definition written (page_id : page_id_t) (data : list byte) (d : DiskManager)
    : DiskManager :=
  mkDisk (<[page_id := data]> (disk_pages d)) (next_page_id d)
         (WritePageCall page_id data :: disk_calls d).

(** What [FlushAllPagesImpl] makes of one frame and of the disk. *)
Definition flushed (p : Page) : Page :=
  if decide (page_id_ p = INVALID_PAGE_ID) then p else set_is_dirty false p.

Definition flush_write (d : DiskManager) (p : Page) : DiskManager :=
  if decide (page_id_ p = INVALID_PAGE_ID) then d
  else written (page_id_ p) (data_ p) d.

(** ** Callers that keep to the contract *)

(** One public operation that returns, called as its contract asks:
    [fetch_page] only for page ids the disk manager has handed out, and
    [unpin_page] only for pages that are resident. *)
Inductive step_ok : BufferPoolManager -> BufferPoolManager -> Prop :=
  | step_ok_fetch_page page_id r s s' :
      0 <= page_id < next_page_id (disk_manager_ s) ->
      BPM.FetchPageImpl page_id s = Returns r s' -> step_ok s s'
  | step_ok_unpin_page page_id is_dirty r s s' :
      is_Some (page_table_ s !! page_id) ->
      BPM.UnpinPageImpl page_id is_dirty s = Returns r s' -> step_ok s s'
  | step_ok_flush_page page_id r s s' :
      BPM.FlushPageImpl page_id s = Returns r s' -> step_ok s s'
  | step_ok_new_page r s s' :
      BPM.NewPageImpl s = Returns r s' -> step_ok s s'
  | step_ok_delete_page page_id r s s' :
      BPM.DeletePageImpl page_id s = Returns r s' -> step_ok s s'.

Inductive reachable_ok (pool_size : nat) : BufferPoolManager -> Prop :=
  | reachable_ok_new : reachable_ok pool_size (BPM.new pool_size Disk.new)
  | reachable_ok_step s s' :
      reachable_ok pool_size s -> step_ok s s' -> reachable_ok pool_size s'.

(** What the pool keeps when its callers keep to the contract: the page
    table maps a page id to a frame that holds that page, and only ids the
    disk manager has handed out; the free list has no duplicates and its
    frames are empty and unpinned; and a frame in the replacer is on the
    free list or resident. *)
Record coherent (s : BufferPoolManager) : Prop := {
  co_page_table :
    forall page_id f, page_table_ s !! page_id = Some f ->
      exists fr, frame_at f (pages_ s) = Some fr /\ page_id_ fr = page_id;
  co_allocated :
    forall page_id f, page_table_ s !! page_id = Some f ->
      0 <= page_id < next_page_id (disk_manager_ s);
  co_next_page_id : 0 <= next_page_id (disk_manager_ s);
  co_free_NoDup : NoDup (free_list_ s);
  co_free_list :
    forall f, f ∈ free_list_ s ->
      exists fr, frame_at f (pages_ s) = Some fr
                 /\ page_id_ fr = INVALID_PAGE_ID /\ pin_count_ fr = 0;
  co_evictable :
    forall f, evictable f s ->
      f ∈ free_list_ s \/ in_page_table f s
}.

(** ** Two replacers *)

(** A replacer of capacity 3 holding frames 2 and 0, frame 2 the older. *)
Definition replacer_three : LRUReplacer.t :=
  LRUReplacer.mk 3 [2; 0] (list_to_set [2; 0]) Unlocked.

(** A replacer of capacity 2 that is full. *)
Definition replacer_full : LRUReplacer.t :=
  LRUReplacer.mk 2 [0; 1] (list_to_set [0; 1]) Unlocked.

(** ** Symbolic execution *)

Ltac run_step :=
  cbv beta iota delta
    [bind ret get gets modify undefined on_field mutex_lock mutex_unlock
     LRUReplacer.lock LRUReplacer.unlock
     LRUReplacer.set_victim_queue LRUReplacer.set_frame_in_replacer
     LRUReplacer.set_replacer_mutex
     LRUReplacer.max_pages LRUReplacer.victim_queue
     LRUReplacer.frame_in_replacer LRUReplacer.replacer_mutex].

Ltac run_bpm :=
  cbv beta iota delta
    [bind ret get gets modify undefined on_field mutex_lock mutex_unlock
     BPM.latch_lock BPM.latch_unlock BPM.replacer BPM.disk_manager
     BPM.frame BPM.frame_set BPM.frame_pin_count_incr BPM.take_frame
     BPM.page_table_subscript
     Disk.WritePage Disk.ReadPage Disk.AllocatePage Disk.DeallocatePage
     set_pages set_disk_manager set_replacer set_page_table set_free_list
     set_latch pool_size_ pages_ disk_manager_ replacer_ page_table_
     free_list_ latch_ disk_pages next_page_id disk_calls].

(** Inversion of a computation that returns. *)

Section Inversion.

Context {St A B : Type}.

Lemma bind_Returns (m : M St A) (k : A -> M St B) s r s' :
  bind m k s = Returns r s' ->
  exists a s1, m s = Returns a s1 /\ k a s1 = Returns r s'.
Proof. unfold bind. destruct (m s); [eauto | discriminate | discriminate]. Qed.

Lemma ret_Returns (a : A) (s : St) r s' :
  ret a s = Returns r s' -> r = a /\ s' = s.
Proof. by intros [= -> ->]. Qed.

End Inversion.

Ltac monad_inv H :=
  lazymatch type of H with
  | bind _ _ _ = Returns _ _ =>
      let H1 := fresh "Hcall" in
      apply bind_Returns in H as (? & ? & H1 & H); monad_inv H
  | ret _ _ = Returns _ _ =>
      apply ret_Returns in H as [? ?]; subst
  | (match ?x with _ => _ end) _ = Returns _ _ =>
      destruct x; monad_inv H
  | _ => idtac
  end.

(** ** The replacer *)

Section Replacer.

Import LRUReplacer.

Implicit Types (r : LRUReplacer.t) (f : frame_id_t).

Lemma Victim_empty r :
  replacer_mutex r = Unlocked -> victim_queue r = [] ->
  Victim r = Returns None r.
Proof.
  destruct r as [cap q g m]; simpl; intros -> ->.
  reflexivity.
Qed.

Lemma Victim_front r f rest :
  replacer_mutex r = Unlocked -> victim_queue r = f :: rest ->
  Victim r = Returns (Some f)
               (mk (max_pages r) rest (frame_in_replacer r ∖ {[f]}) Unlocked).
Proof.
  destruct r as [cap q g m]; simpl; intros -> ->.
  reflexivity.
Qed.

Lemma Pin_returns r f :
  replacer_mutex r = Unlocked ->
  exists r', Pin f r = Returns tt r' /\ replacer_mutex r' = Unlocked.
Proof.
  destruct r as [cap q g m]; simpl; intros ->.
  unfold Pin; run_step.
  destruct (decide (f ∈ g)); [|eauto].
  destruct (erase_first f q); eauto.
Qed.

Lemma Unpin_returns r f :
  replacer_mutex r = Unlocked ->
  exists r', Unpin f r = Returns tt r' /\ replacer_mutex r' = Unlocked.
Proof.
  destruct r as [cap q g m]; simpl; intros ->.
  unfold Unpin; run_step.
  destruct (decide (f ∈ g)); [eauto|].
  destruct (decide (length q < cap)%nat); eauto.
Qed.

Lemma Size_length r :
  replacer_mutex r = Unlocked ->
  Size r = Returns (length (victim_queue r)) r.
Proof.
  destruct r as [cap q g m]; simpl; intros ->.
  reflexivity.
Qed.

Lemma Unpin_member r f :
  replacer_mutex r = Unlocked -> f ∈ frame_in_replacer r ->
  Unpin f r = Returns tt r.
Proof.
  destruct r as [cap q g m]; simpl; intros -> Hin.
  unfold Unpin; run_step.
  rewrite decide_True by assumption.
  reflexivity.
Qed.

Lemma Unpin_twice r f :
  replacer_mutex r = Unlocked ->
  exists r', Unpin f r = Returns tt r' /\ Unpin f r' = Returns tt r'.
Proof.
  destruct r as [cap q g m]; simpl; intros ->.
  unfold Unpin; run_step.
  destruct (decide (f ∈ g)) as [Hin|Hout].
  - eexists; split; [reflexivity|]. run_step.
    rewrite decide_True by assumption. reflexivity.
  - destruct (decide (length q < cap)%nat) as [Hlt|Hge].
    + eexists; split; [reflexivity|]. run_step.
      rewrite decide_True by set_solver. reflexivity.
    + eexists; split; [reflexivity|]. run_step.
      rewrite decide_False by assumption.
      rewrite decide_False by assumption. reflexivity.
Qed.

End Replacer.

(** The replacer keeps its sequence and its set in step. *)

Section Consistency.

Import LRUReplacer.

Lemma erase_first_Some f q q' :
  erase_first f q = Some q' -> NoDup q ->
  NoDup q' /\ forall x, x ∈ q' <-> x ∈ q /\ x <> f.
Proof.
  revert q'. induction q as [|y q IH]; simpl; intros q' Heq Hnd; [discriminate|].
  apply NoDup_cons in Hnd as [Hy Hnd].
  destruct (decide (y = f)) as [->|Hne].
  - injection Heq as <-. split; [assumption|].
    intros x. rewrite elem_of_cons. split.
    + intros Hx. split; [by right|]. by intros ->.
    + intros [[?|?] ?]; [contradiction|assumption].
  - destruct (erase_first f q) as [q0|]; [|discriminate].
    injection Heq as <-. destruct (IH q0 eq_refl Hnd) as [Hnd0 Hiff].
    split.
    + apply NoDup_cons. split; [|assumption]. rewrite Hiff. tauto.
    + intros x. rewrite !elem_of_cons, Hiff. split.
      * intros [->|[? ?]]; split; auto.
      * intros [[->|?] ?]; auto.
Qed.

Lemma new_consistent n : consistent (new n).
Proof. split; [constructor|]. intros f. simpl. set_solver. Qed.

Lemma Victim_consistent r o r' :
  consistent r -> Victim r = Returns o r' -> consistent r'.
Proof.
  destruct r as [cap q g m]. intros [Hnd Hiff]; simpl in *.
  unfold Victim; run_step. destruct m; [|discriminate].
  destruct q as [|f rest]; [intros [= _ <-]; by split|].
  intros [= _ <-]. apply NoDup_cons in Hnd as [Hf Hnd].
  split; [assumption|]. intros x; simpl.
  rewrite elem_of_difference, Hiff, elem_of_cons, elem_of_singleton.
  split; [intros [[?|?] ?]; [contradiction|assumption]|].
  intros Hx. split; [by right|]. by intros ->.
Qed.

Lemma Pin_consistent r f u r' :
  consistent r -> Pin f r = Returns u r' -> consistent r'.
Proof.
  destruct r as [cap q g m]. intros [Hnd Hiff]; simpl in *.
  unfold Pin; run_step. destruct m; [|discriminate].
  destruct (decide (f ∈ g)); [|intros [= _ <-]; by split].
  destruct (erase_first f q) as [q'|] eqn:Hq; [|intros [= _ <-]; by split].
  intros [= _ <-]. destruct (erase_first_Some f q q' Hq Hnd) as [Hnd' Hiff'].
  split; [assumption|]. intros x; simpl.
  rewrite elem_of_difference, Hiff, Hiff', elem_of_singleton. tauto.
Qed.

Lemma Unpin_consistent r f u r' :
  consistent r -> Unpin f r = Returns u r' -> consistent r'.
Proof.
  destruct r as [cap q g m]. intros [Hnd Hiff]; simpl in *.
  unfold Unpin; run_step. destruct m; [|discriminate].
  destruct (decide (f ∈ g)) as [Hin|Hout]; [intros [= _ <-]; by split|].
  destruct (decide (length q < cap)%nat); [|intros [= _ <-]; by split].
  intros [= _ <-]. split; simpl.
  - apply NoDup_app. split; [assumption|]. split; [|apply NoDup_singleton].
    intros x Hx ->%list_elem_of_singleton. apply Hout, Hiff, Hx.
  - intros x. rewrite elem_of_union, elem_of_app, Hiff, elem_of_singleton,
      list_elem_of_singleton. tauto.
Qed.

Lemma consistent_empty r :
  consistent r -> victim_queue r = [] <-> frame_in_replacer r = ∅.
Proof.
  intros [_ Hiff]. split.
  - intros Hq. apply set_eq. intros x.
    rewrite Hiff, Hq, elem_of_nil, elem_of_empty. tauto.
  - intros Hg. destruct (victim_queue r) as [|f rest] eqn:Hq; [reflexivity|].
    exfalso. apply (not_elem_of_empty (C := gset Z) f). rewrite <- Hg.
    apply Hiff. left.
Qed.

End Consistency.

(** [LRUReplacer::Unpin] is idempotent (claim C9): on a frame that is
    already in the membership set the call returns with the replacer
    exactly as it was (same sequence, same set), and on any frame a second
    call made right after a first one changes nothing, so repeated calls
    leave the sequence as the first one left it. *)
Theorem Unpin_idempotent (r : LRUReplacer.t) (frame_id : frame_id_t) :
  LRUReplacer.replacer_mutex r = Unlocked ->
  (frame_id ∈ LRUReplacer.frame_in_replacer r ->
   LRUReplacer.Unpin frame_id r = Returns tt r)
  /\ (exists r', LRUReplacer.Unpin frame_id r = Returns tt r'
                 /\ LRUReplacer.Unpin frame_id r' = Returns tt r').
Proof.
  intros Hm. split.
  - intros Hin. by apply Unpin_member.
  - by apply Unpin_twice.
Qed.

Lemma Unpin_idempotent_example :
  let r := LRUReplacer.mk 3 [2; 0] {[2; 0]} Unlocked in
  LRUReplacer.replacer_mutex r = Unlocked
  /\ 0 ∈ LRUReplacer.frame_in_replacer r
  /\ LRUReplacer.Unpin 0 r = Returns tt r.
Proof.
  intros r.
  assert (Hm : LRUReplacer.replacer_mutex r = Unlocked) by reflexivity.
  assert (Hin : 0 ∈ LRUReplacer.frame_in_replacer r) by (subst r; simpl; set_solver).
  split; [exact Hm|]. split; [exact Hin|].
  exact (proj1 (Unpin_idempotent r 0 Hm) Hin).
Defined.

(** ** The frame array *)

Lemma frame_at_Some f pages :
  is_Some (frame_at f pages) <-> 0 <= f /\ (Z.to_nat f < length pages)%nat.
Proof.
  unfold frame_at. destruct (decide (0 <= f)).
  - rewrite lookup_lt_is_Some. tauto.
  - split; [intros [? ?]; discriminate | tauto].
Qed.

Lemma frame_at_insert f pages (q : Page) :
  is_Some (frame_at f pages) -> frame_at f (<[Z.to_nat f := q]> pages) = Some q.
Proof.
  rewrite frame_at_Some. intros [Hf Hlt]. unfold frame_at.
  rewrite decide_True by assumption. by apply list_lookup_insert_eq.
Qed.

Lemma frame_at_insert_is_Some f i pages (q : Page) :
  is_Some (frame_at f pages) -> is_Some (frame_at f (<[i := q]> pages)).
Proof. rewrite !frame_at_Some, length_insert. tauto. Qed.

Ltac frames :=
  repeat first
    [ rewrite frame_at_insert
    | apply frame_at_insert_is_Some ];
  try first [ done | eapply mk_is_Some; eassumption ].

Ltac run_Pin :=
  match goal with
  | |- context [LRUReplacer.Pin ?f ?r] =>
      let r' := fresh "r'" in
      destruct (Pin_returns r f) as (r' & -> & _); [reflexivity || assumption|]
  end.

(** ** The buffer pool manager *)

Section BufferPool.

Implicit Types (s : BufferPoolManager) (page_id : page_id_t).

Lemma new_idle n d : idle (BPM.new n d).
Proof. split; reflexivity. Qed.

(** [fetch_page] returns [nullptr] exactly when the page is not resident,
    the free list is empty and the replacer has nothing to evict (claim
    C8); in every other case it returns a frame of the pool. *)
Theorem FetchPageImpl_none_iff s page_id :
  idle s -> frames_in_range s ->
  exists r s',
    BPM.FetchPageImpl page_id s = Returns r s'
    /\ (r = None <->
        page_table_ s !! page_id = None
        /\ free_list_ s = []
        /\ LRUReplacer.victim_queue (replacer_ s) = [])
    /\ (forall frame_id, r = Some frame_id -> is_Some (frame_at frame_id (pages_ s'))).
Proof.
  destruct s as [n pages disk repl table free l].
  intros [Hl Hm] (Htable & Hfree & Hqueue); simpl in *; subst l.
  unfold BPM.FetchPageImpl; run_bpm.
  destruct (table !! page_id) as [f|] eqn:Hlk.
  - destruct (Htable page_id f Hlk) as (pg & Hpg & Hlt).
    run_Pin.
    run_bpm. rewrite Hpg. rewrite decide_True by assumption. rewrite Hpg.
    do 2 eexists; split; [reflexivity|]. split.
    + split; [discriminate|]. intros [? _]; discriminate.
    + intros ? [= <-]. frames.
  - destruct free as [|f rest].
    + destruct (LRUReplacer.victim_queue repl) as [|f rest] eqn:Hq.
      * rewrite (Victim_empty repl Hm Hq).
        do 2 eexists; split; [reflexivity|]. split; [done|discriminate].
      * rewrite (Victim_front repl f rest Hm Hq).
        apply Forall_cons in Hqueue as [[pg Hpg] _].
        rewrite Hpg.
        destruct (is_dirty_ pg); run_bpm; rewrite Hpg; frames; run_Pin;
          (do 2 eexists; split; [reflexivity|]; split;
           [ split; [discriminate | intros (_ & _ & [=])]
           | intros ? [= <-]; simpl; frames ]).
    + apply Forall_cons in Hfree as [[pg Hpg] _].
      rewrite Hpg.
      destruct (is_dirty_ pg); run_bpm; rewrite Hpg; frames; run_Pin;
        (do 2 eexists; split; [reflexivity|]; split;
         [ split; [discriminate | intros (_ & [=] & _)]
         | intros ? [= <-]; simpl; frames ]).
Qed.

(** [delete_page] of a page that is not resident returns [true] and leaves
    the pool, the disk manager's record of calls included, exactly as it
    was: nothing is deallocated on disk (claim C10). *)
Theorem DeletePageImpl_not_resident s page_id :
  latch_ s = Unlocked ->
  page_table_ s !! page_id = None ->
  BPM.DeletePageImpl page_id s = Returns true s.
Proof.
  destruct s as [n pages disk repl table free l]; simpl.
  intros -> Hlk.
  unfold BPM.DeletePageImpl; run_bpm.
  rewrite Hlk. reflexivity.
Qed.

End BufferPool.

(** ** The replacer of a reachable pool *)

Section ReachableReplacer.

Lemma keeps_field {A} (m : M BufferPoolManager A) :
  (forall s a s', m s = Returns a s' -> replacer_ s' = replacer_ s) -> keeps m.
Proof. intros Hm s a s' Hret Hc. by rewrite (Hm s a s' Hret). Qed.

Lemma keeps_bind {A B} (m : M BufferPoolManager A) (k : A -> M BufferPoolManager B) :
  keeps m -> (forall a, keeps (k a)) -> keeps (bind m k).
Proof.
  intros Hm Hk s b s' Hret Hc.
  apply bind_Returns in Hret as (a & s1 & Hm1 & Hk1).
  eapply Hk; [exact Hk1|]. eapply Hm; eassumption.
Qed.

Lemma keeps_ret {A} (a : A) : keeps (ret a).
Proof. apply keeps_field. by intros s ? ? [= _ <-]. Qed.

Lemma keeps_gets {A} (f : BufferPoolManager -> A) : keeps (gets f).
Proof. apply keeps_field. by intros s ? ? [= _ <-]. Qed.

Lemma keeps_modify (f : BufferPoolManager -> BufferPoolManager) :
  (forall s, replacer_ (f s) = replacer_ s) -> keeps (modify f).
Proof. intros Hf. apply keeps_field. intros s ? ? [= _ <-]. apply Hf. Qed.

Lemma keeps_undefined {A} : keeps (@undefined BufferPoolManager A).
Proof. intros s a s' Hret. discriminate Hret. Qed.

Lemma keeps_latch_lock : keeps BPM.latch_lock.
Proof.
  apply keeps_field. intros [n pages disk repl table free l] a s'. run_bpm.
  destruct l; [|discriminate]. by intros [= _ <-].
Qed.

Lemma keeps_latch_unlock : keeps BPM.latch_unlock.
Proof.
  apply keeps_field. intros [n pages disk repl table free l] a s'. run_bpm.
  destruct l; [discriminate|]. by intros [= _ <-].
Qed.

Lemma keeps_disk_manager {A} (m : M DiskManager A) : keeps (BPM.disk_manager m).
Proof.
  apply keeps_field. intros [n pages disk repl table free l] a s'. run_bpm.
  destruct (m disk); [|discriminate|discriminate]. by intros [= _ <-].
Qed.

Lemma keeps_frame f : keeps (BPM.frame f).
Proof.
  apply keeps_field. intros s a s'. unfold BPM.frame.
  destruct (frame_at f (pages_ s)); [|discriminate]. by intros [= _ <-].
Qed.

Lemma keeps_replacer {A} (m : M LRUReplacer.t A) :
  (forall r a r', m r = Returns a r' -> consistent r -> consistent r') ->
  keeps (BPM.replacer m).
Proof.
  intros Hm [n pages disk repl table free l] a s'. run_bpm.
  destruct (m repl) as [a' r'| |] eqn:Hr; [|discriminate|discriminate].
  intros [= _ <-] Hc. simpl in *. eapply Hm; eassumption.
Qed.

End ReachableReplacer.

Ltac keeps_step :=
  match goal with
  | |- keeps (bind _ _) => apply keeps_bind; [|intros ?]
  | |- keeps (ret _) => apply keeps_ret
  | |- keeps (gets _) => apply keeps_gets
  | |- keeps undefined => apply keeps_undefined
  | |- keeps (modify _) => apply keeps_modify; intros []; reflexivity
  | |- keeps BPM.latch_lock => apply keeps_latch_lock
  | |- keeps BPM.latch_unlock => apply keeps_latch_unlock
  | |- keeps (BPM.disk_manager _) => apply keeps_disk_manager
  | |- keeps (BPM.frame _) => apply keeps_frame
  | |- keeps (BPM.frame_set _ _) => unfold BPM.frame_set
  | |- keeps (BPM.frame_pin_count_incr _) => unfold BPM.frame_pin_count_incr
  | |- keeps BPM.take_frame => unfold BPM.take_frame
  | |- keeps (BPM.page_table_subscript _) => unfold BPM.page_table_subscript
  | |- keeps (BPM.replacer (LRUReplacer.Pin _)) =>
      apply keeps_replacer; intros ? ? ? ? ?; eapply Pin_consistent; eassumption
  | |- keeps (BPM.replacer (LRUReplacer.Unpin _)) =>
      apply keeps_replacer; intros ? ? ? ? ?; eapply Unpin_consistent; eassumption
  | |- keeps (BPM.replacer LRUReplacer.Victim) =>
      apply keeps_replacer; intros ? ? ? ? ?; eapply Victim_consistent; eassumption
  | |- keeps (match ?x with _ => _ end) => destruct x
  end.

(** Every public operation keeps the replacer consistent. *)
Lemma operations_keep_replacer :
  (forall page_id, keeps (BPM.FetchPageImpl page_id))
  /\ (forall page_id is_dirty, keeps (BPM.UnpinPageImpl page_id is_dirty))
  /\ (forall page_id, keeps (BPM.FlushPageImpl page_id))
  /\ keeps BPM.NewPageImpl
  /\ (forall page_id, keeps (BPM.DeletePageImpl page_id)).
Proof.
  split; [|split; [|split; [|split]]]; intros;
    [ unfold BPM.FetchPageImpl | unfold BPM.UnpinPageImpl | unfold BPM.FlushPageImpl
    | unfold BPM.NewPageImpl | unfold BPM.DeletePageImpl ];
    repeat keeps_step.
Qed.

Lemma step_consistent s s' :
  step s s' -> consistent (replacer_ s) -> consistent (replacer_ s').
Proof.
  destruct operations_keep_replacer as (Hf & Hu & Hfl & Hn & Hd).
  intros [page_id r s0 s0' H|page_id d r s0 s0' H|page_id r s0 s0' H
         |r s0 s0' H|page_id r s0 s0' H]; [eapply Hf|eapply Hu|eapply Hfl|eapply Hn|eapply Hd]; exact H.
Qed.

(** Between operations the replacer's set and its sequence always agree:
    the sequence is empty exactly when the set is. *)
Theorem reachable_consistent n s :
  reachable n s -> consistent (replacer_ s).
Proof.
  induction 1 as [|s s' _ IH Hstep].
  - apply new_consistent.
  - eapply step_consistent; eassumption.
Qed.

(** ** Call sequences on a pool of one frame *)

Section OneFrame.

Ltac evaluate := vm_compute; reflexivity.

Lemma pool1_new : BPM.new 1 Disk.new = pool1.
Proof. evaluate. Qed.

Lemma new_page_pool1 : BPM.NewPageImpl pool1 = Returns (Some (0, 0)) pool1_pinned.
Proof. evaluate. Qed.

Lemma fetch_page_pool1_pinned :
  BPM.FetchPageImpl 0 pool1_pinned = Returns (Some 0) pool1_pinned_twice.
Proof. evaluate. Qed.

Lemma unpin_page_pool1_pinned_twice :
  BPM.UnpinPageImpl 0 true pool1_pinned_twice = Returns true pool1_pinned_dirty.
Proof. evaluate. Qed.

Lemma unpin_page_pool1_pinned_dirty :
  BPM.UnpinPageImpl 0 false pool1_pinned_dirty = Returns true pool1_unpinned.
Proof. evaluate. Qed.

Lemma unpin_page_pool1_pinned (is_dirty : bool) :
  BPM.UnpinPageImpl 0 is_dirty pool1_pinned
  = Returns true (if is_dirty then pool1_unpinned_dirty else pool1_unpinned).
Proof. destruct is_dirty; evaluate. Qed.

Lemma unpin_page_pool1_unpinned_dirty :
  BPM.UnpinPageImpl 0 false pool1_unpinned_dirty = Returns false pool1_unpinned.
Proof. evaluate. Qed.

Lemma delete_page_pool1_unpinned :
  BPM.DeletePageImpl 0 pool1_unpinned = Returns true pool1_deleted.
Proof. evaluate. Qed.

Lemma new_page_pool1_unpinned :
  BPM.NewPageImpl pool1_unpinned = Returns (Some (1, 0)) pool1_replaced.
Proof. evaluate. Qed.

Lemma fetch_page_pool1_unpinned :
  BPM.FetchPageImpl 5 pool1_unpinned = Returns (Some 0) pool1_refetched.
Proof. evaluate. Qed.

Lemma unpin_page_pool1_miss :
  BPM.UnpinPageImpl 7 true pool1 = Returns false pool1_phantom.
Proof. evaluate. Qed.

Lemma unpin_page_pool1_pinned_miss :
  BPM.UnpinPageImpl 7 true pool1_pinned = Returns true pool1_phantom_unpinned.
Proof. evaluate. Qed.

Lemma pool1_reachable : reachable 1 pool1.
Proof. rewrite <- pool1_new. constructor. Qed.

Lemma pool1_pinned_reachable : reachable 1 pool1_pinned.
Proof.
  eapply reachable_step; [apply pool1_reachable|].
  eapply step_new_page, new_page_pool1.
Qed.

Lemma pool1_unpinned_reachable : reachable 1 pool1_unpinned.
Proof.
  eapply reachable_step; [apply pool1_pinned_reachable|].
  eapply step_unpin_page, (unpin_page_pool1_pinned false).
Qed.

Lemma pool1_unpinned_dirty_reachable : reachable 1 pool1_unpinned_dirty.
Proof.
  eapply reachable_step; [apply pool1_pinned_reachable|].
  eapply step_unpin_page, (unpin_page_pool1_pinned true).
Qed.

Lemma pool1_pinned_dirty_reachable : reachable 1 pool1_pinned_dirty.
Proof.
  eapply reachable_step; [eapply reachable_step; [apply pool1_pinned_reachable|]|].
  - eapply step_fetch_page, fetch_page_pool1_pinned.
  - eapply step_unpin_page, unpin_page_pool1_pinned_twice.
Qed.

Lemma pool1_deleted_reachable : reachable 1 pool1_deleted.
Proof.
  eapply reachable_step; [apply pool1_unpinned_reachable|].
  eapply step_delete_page, delete_page_pool1_unpinned.
Qed.

End OneFrame.

(** ** What the operations do in general *)

Section Operations.

Implicit Types (s : BufferPoolManager) (page_id : page_id_t).

(** Both early returns of [FlushPageImpl] leave with the latch held. *)
Lemma FlushPageImpl_early_return s page_id :
  latch_ s = Unlocked ->
  page_id = INVALID_PAGE_ID \/ page_table_ s !! page_id = None ->
  BPM.FlushPageImpl page_id s = Returns false (set_latch Locked s).
Proof.
  destruct s as [n pages disk repl table free l]; simpl.
  intros -> Hcase.
  unfold BPM.FlushPageImpl; run_bpm.
  destruct (decide (page_id = INVALID_PAGE_ID)); [reflexivity|].
  destruct Hcase as [?|Hlk]; [contradiction|].
  rewrite Hlk. reflexivity.
Qed.

(** The [nullptr] return of [FetchPageImpl] leaves with the latch held. *)
Lemma FetchPageImpl_exhausted s page_id :
  idle s ->
  page_table_ s !! page_id = None ->
  free_list_ s = [] ->
  LRUReplacer.victim_queue (replacer_ s) = [] ->
  BPM.FetchPageImpl page_id s = Returns None (set_latch Locked s).
Proof.
  destruct s as [n pages disk repl table free l].
  intros [Hl Hm]; simpl in *; intros Hlk -> Hq; subst l.
  unfold BPM.FetchPageImpl; run_bpm.
  rewrite Hlk, (Victim_empty repl Hm Hq).
  destruct repl; reflexivity.
Qed.

(** The same situation in [NewPageImpl]: the latch is released. *)
Lemma NewPageImpl_exhausted s :
  idle s ->
  free_list_ s = [] ->
  LRUReplacer.victim_queue (replacer_ s) = [] ->
  BPM.NewPageImpl s = Returns None s.
Proof.
  destruct s as [n pages disk repl table free l].
  intros [Hl Hm]; simpl in *; intros -> Hq; subst l.
  unfold BPM.NewPageImpl; run_bpm.
  rewrite (Victim_empty repl Hm Hq).
  destruct repl; reflexivity.
Qed.

Lemma latch_unlock_Returns s u s' :
  BPM.latch_unlock s = Returns u s' -> latch_ s' = Unlocked.
Proof.
  destruct s as [n pages disk repl table free l]. run_bpm.
  destruct l; [discriminate|]. by intros [= _ <-].
Qed.

(** [UnpinPageImpl], [NewPageImpl] and [DeletePageImpl] release the latch on
    every path that returns. *)
Lemma releasing_operations s s' :
  (forall page_id is_dirty r,
      BPM.UnpinPageImpl page_id is_dirty s = Returns r s' -> latch_ s' = Unlocked)
  /\ (forall r, BPM.NewPageImpl s = Returns r s' -> latch_ s' = Unlocked)
  /\ (forall page_id r,
         BPM.DeletePageImpl page_id s = Returns r s' -> latch_ s' = Unlocked).
Proof.
  split; [|split].
  - intros page_id is_dirty r H. unfold BPM.UnpinPageImpl in H.
    monad_inv H; eauto using latch_unlock_Returns.
  - intros r H. unfold BPM.NewPageImpl in H.
    monad_inv H; eauto using latch_unlock_Returns.
  - intros page_id r H. unfold BPM.DeletePageImpl in H.
    monad_inv H; eauto using latch_unlock_Returns.
Qed.

(** Once the latch is left held, no public operation returns any more. *)
Lemma held_latch_blocks s :
  latch_ s = Locked ->
  (forall page_id, BPM.FetchPageImpl page_id s = Blocks)
  /\ (forall page_id is_dirty, BPM.UnpinPageImpl page_id is_dirty s = Blocks)
  /\ (forall page_id, BPM.FlushPageImpl page_id s = Blocks)
  /\ BPM.NewPageImpl s = Blocks
  /\ (forall page_id, BPM.DeletePageImpl page_id s = Blocks).
Proof.
  destruct s as [n pages disk repl table free l]; simpl; intros ->.
  repeat split; reflexivity.
Qed.

(** [UnpinPageImpl] of a resident page stores its argument in the dirty bit
    of the frame, whatever the bit and the pin count were. *)
Lemma UnpinPageImpl_dirty_bit s page_id is_dirty frame_id fr :
  idle s ->
  page_table_ s !! page_id = Some frame_id ->
  frame_at frame_id (pages_ s) = Some fr ->
  exists r s' fr',
    BPM.UnpinPageImpl page_id is_dirty s = Returns r s'
    /\ r = bool_decide (0 < pin_count_ fr)
    /\ frame_at frame_id (pages_ s') = Some fr'
    /\ is_dirty_ fr' = is_dirty.
Proof.
  destruct s as [n pages disk repl table free l].
  intros [Hl Hm]; simpl in *; intros Hlk Hfr; subst l.
  unfold BPM.UnpinPageImpl; run_bpm.
  rewrite Hlk, Hfr. frames. simpl.
  destruct (decide (pin_count_ fr <= 0)) as [Hle|Hgt].
  - do 3 eexists. split; [reflexivity|].
    split; [by rewrite bool_decide_eq_false_2 by lia|].
    split; [simpl; frames|reflexivity].
  - run_bpm. frames. simpl.
    destruct (decide (pin_count_ fr - 1 = 0)).
    + destruct (Unpin_returns repl frame_id Hm) as (r' & -> & _).
      do 3 eexists. split; [reflexivity|].
      split; [by rewrite bool_decide_eq_true_2 by lia|].
      split; [simpl; frames|reflexivity].
    + do 3 eexists. split; [reflexivity|].
      split; [by rewrite bool_decide_eq_true_2 by lia|].
      split; [simpl; frames|reflexivity].
Qed.

(** [DeletePageImpl] never touches the replacer. *)
Lemma DeletePageImpl_replacer s page_id r s' :
  BPM.DeletePageImpl page_id s = Returns r s' ->
  replacer_ s' = replacer_ s.
Proof.
  destruct s as [n pages disk repl table free l].
  unfold BPM.DeletePageImpl; run_bpm.
  destruct l; [|discriminate].
  destruct (table !! page_id) as [f|] eqn:Hlk; [|by intros [= _ <-]].
  run_bpm. rewrite Hlk.
  destruct (frame_at f pages) as [fr|] eqn:Hfr; [|discriminate].
  destruct (decide (pin_count_ fr > 0)); [by intros [= _ <-]|].
  run_bpm. rewrite Hfr. frames.
  by intros [= _ <-].
Qed.

(** [NewPageImpl] writes the previous occupant of the frame it takes back to
    disk whenever there is one, whatever its dirty bit. *)
Lemma NewPageImpl_writes_occupant s frame_id rest fr :
  idle s ->
  free_list_ s = frame_id :: rest
  \/ (free_list_ s = [] /\ LRUReplacer.victim_queue (replacer_ s) = frame_id :: rest) ->
  frame_at frame_id (pages_ s) = Some fr ->
  page_id_ fr <> INVALID_PAGE_ID ->
  exists r s',
    BPM.NewPageImpl s = Returns r s'
    /\ WritePageCall (page_id_ fr) (data_ fr) ∈ disk_calls (disk_manager_ s').
Proof.
  destruct s as [n pages disk repl table free l].
  intros [Hl Hm]; simpl in *; intros Hsel Hfr Hvalid; subst l.
  unfold BPM.NewPageImpl; run_bpm.
  destruct Hsel as [->|[-> Hq]].
  - rewrite Hfr, decide_True by assumption.
    run_bpm. rewrite Hfr. frames. run_Pin. frames.
    do 2 eexists. split; [reflexivity|]. simpl. set_solver.
  - rewrite (Victim_front repl frame_id rest Hm Hq).
    rewrite Hfr, decide_True by assumption.
    run_bpm. rewrite Hfr. frames. run_Pin. frames.
    do 2 eexists. split; [reflexivity|]. simpl. set_solver.
Qed.

End Operations.

(** ** The claims that fail on the code *)

Section Divergences.

Ltac evaluate := vm_compute; reflexivity.

Ltac in_set :=
  unfold evictable;
  match goal with
  | |- ?x ∈ ?X =>
      replace X with ({[x]} : gset Z) by evaluate; set_solver
  end.

Ltac no_such_call :=
  match goal with
  | Hin : _ ∈ _ |- _ =>
      repeat (apply elem_of_cons in Hin as [Hin|Hin]; [discriminate Hin|]);
      by apply elem_of_nil in Hin
  end.

(** Claim C1 fails on the code.  The pool reached by [new_page],
    [unpin_page 0 false], [delete_page 0] has frame 0 in the replacer while
    the page table is empty, so "evictable iff resident with pin count 0"
    does not hold between operations: [DeletePageImpl] puts the frame on
    the free list and never tells the replacer. *)
Theorem delete_page_breaks_evictable_iff_unpinned :
  reachable 1 pool1_deleted
  /\ evictable 0 pool1_deleted
  /\ ~ in_page_table 0 pool1_deleted
  /\ ~ evictable_iff_unpinned pool1_deleted.
Proof.
  assert (Hin : evictable 0 pool1_deleted) by in_set.
  assert (Hout : ~ in_page_table 0 pool1_deleted).
  { intros [page_id Hlk]. simpl in Hlk. by rewrite lookup_empty in Hlk. }
  split; [apply pool1_deleted_reachable|].
  split; [exact Hin|]. split; [exact Hout|].
  intros Hinv. apply Hout. by apply (Hinv 0).
Qed.

(** The other way round: after [unpin_page] of a page that is not resident,
    frame 0 is the image of a page-table entry and has pin count 0, yet it
    is not in the replacer. *)
Lemma unpin_page_miss_breaks_evictable_iff_unpinned :
  reachable 1 pool1_phantom
  /\ in_page_table 0 pool1_phantom
  /\ unpinned 0 pool1_phantom
  /\ ~ evictable 0 pool1_phantom.
Proof.
  split.
  { eapply reachable_step; [apply pool1_reachable|].
    eapply step_unpin_page, unpin_page_pool1_miss. }
  split; [exists 7; reflexivity|].
  split; [eexists; split; reflexivity|].
  unfold evictable; simpl. set_solver.
Qed.

(** Claim C2 fails on the code.  Page 0 sits clean (dirty bit clear) and
    unpinned in frame 0; [new_page] takes the frame and issues
    [WritePage 0] for the old occupant all the same.  [fetch_page] in the
    same state evicts page 0 without writing it. *)
Theorem new_page_writes_back_clean_occupant :
  reachable 1 pool1_unpinned
  /\ frame_at 0 (pages_ pool1_unpinned) = Some (mkPage zero_bytes 0 0 false)
  /\ BPM.NewPageImpl pool1_unpinned = Returns (Some (1, 0)) pool1_replaced
  /\ disk_calls (disk_manager_ pool1_replaced)
     = WritePageCall 0 zero_bytes :: AllocatePageCall 1
         :: disk_calls (disk_manager_ pool1_unpinned)
  /\ BPM.FetchPageImpl 5 pool1_unpinned = Returns (Some 0) pool1_refetched
  /\ ~ wrote_page 0 (disk_manager_ pool1_refetched).
Proof.
  split; [apply pool1_unpinned_reachable|].
  split; [reflexivity|].
  split; [apply new_page_pool1_unpinned|].
  split; [reflexivity|].
  split; [apply fetch_page_pool1_unpinned|].
  intros [data Hin]. simpl in Hin. no_such_call.
Qed.

(** Claim C3 fails on the code in one point.  Page 0 is resident in frame 0
    with pin count 0 and frame 0 is in the replacer; [delete_page 0]
    deallocates the page, empties the page table, resets the frame, puts it
    on the free list and returns [true], but frame 0 stays in the
    replacer's set and sequence. *)
Theorem delete_page_leaves_frame_in_replacer :
  reachable 1 pool1_unpinned
  /\ page_table_ pool1_unpinned !! 0 = Some 0
  /\ unpinned 0 pool1_unpinned
  /\ evictable 0 pool1_unpinned
  /\ BPM.DeletePageImpl 0 pool1_unpinned = Returns true pool1_deleted
  /\ disk_calls (disk_manager_ pool1_deleted)
     = DeallocatePageCall 0 :: disk_calls (disk_manager_ pool1_unpinned)
  /\ page_table_ pool1_deleted !! 0 = None
  /\ frame_at 0 (pages_ pool1_deleted)
     = Some (mkPage zero_bytes INVALID_PAGE_ID 0 false)
  /\ free_list_ pool1_deleted = [0]
  /\ evictable 0 pool1_deleted
  /\ LRUReplacer.victim_queue (replacer_ pool1_deleted) = [0].
Proof.
  split; [apply pool1_unpinned_reachable|].
  split; [reflexivity|].
  split; [eexists; split; reflexivity|].
  split; [in_set|].
  split; [apply delete_page_pool1_unpinned|].
  split; [reflexivity|].
  split; [reflexivity|].
  split; [reflexivity|].
  split; [reflexivity|].
  split; [in_set|reflexivity].
Qed.

(** Claim C4 fails on the code.  On the fresh pool, [unpin_page 7 true] for
    a page that is not resident does return [false], but it inserts the
    entry 7 -> frame 0 in the page table and sets the dirty bit of frame 0.
    When frame 0 holds a pinned page, the same call returns [true] and
    takes that page's pin away, making its frame evictable. *)
Theorem unpin_page_miss_inserts_phantom_entry :
  page_table_ pool1 !! 7 = None
  /\ BPM.UnpinPageImpl 7 true pool1 = Returns false pool1_phantom
  /\ page_table_ pool1_phantom !! 7 = Some 0
  /\ pool1_phantom <> pool1
  /\ page_table_ pool1_pinned !! 7 = None
  /\ BPM.UnpinPageImpl 7 true pool1_pinned = Returns true pool1_phantom_unpinned
  /\ evictable 0 pool1_phantom_unpinned.
Proof.
  split; [reflexivity|].
  split; [apply unpin_page_pool1_miss|].
  split; [reflexivity|].
  split.
  { intros Heq. apply (f_equal (fun s => page_table_ s !! 7)) in Heq.
    discriminate Heq. }
  split; [reflexivity|].
  split; [apply unpin_page_pool1_pinned_miss|].
  in_set.
Qed.

(** Claim C5 fails on the code.  Page 0 is resident, pinned once, with its
    dirty bit set by an earlier [unpin_page 0 true]; [unpin_page 0 false]
    returns [true] and leaves the dirty bit clear.  The next [fetch_page]
    of another page reuses the frame without writing page 0 back. *)
Theorem unpin_page_overwrites_dirty_bit :
  reachable 1 pool1_pinned_dirty
  /\ page_table_ pool1_pinned_dirty !! 0 = Some 0
  /\ frame_at 0 (pages_ pool1_pinned_dirty) = Some (mkPage zero_bytes 0 1 true)
  /\ BPM.UnpinPageImpl 0 false pool1_pinned_dirty = Returns true pool1_unpinned
  /\ frame_at 0 (pages_ pool1_unpinned) = Some (mkPage zero_bytes 0 0 false)
  /\ BPM.FetchPageImpl 5 pool1_unpinned = Returns (Some 0) pool1_refetched
  /\ ~ wrote_page 0 (disk_manager_ pool1_refetched).
Proof.
  split; [apply pool1_pinned_dirty_reachable|].
  split; [reflexivity|].
  split; [reflexivity|].
  split; [apply unpin_page_pool1_pinned_dirty|].
  split; [reflexivity|].
  split; [apply fetch_page_pool1_unpinned|].
  intros [data Hin]. simpl in Hin. no_such_call.
Qed.

(** Claim C6 fails on the code in one point.  Page 0 is resident with pin
    count 0 and its dirty bit set; [unpin_page 0 false] returns [false] and
    leaves pin count, replacer and page table alone, but it has already
    stored its argument in the dirty bit, which is now clear. *)
Theorem unpin_page_at_zero_changes_dirty_bit :
  reachable 1 pool1_unpinned_dirty
  /\ page_table_ pool1_unpinned_dirty !! 0 = Some 0
  /\ frame_at 0 (pages_ pool1_unpinned_dirty) = Some (mkPage zero_bytes 0 0 true)
  /\ BPM.UnpinPageImpl 0 false pool1_unpinned_dirty = Returns false pool1_unpinned
  /\ frame_at 0 (pages_ pool1_unpinned) = Some (mkPage zero_bytes 0 0 false)
  /\ replacer_ pool1_unpinned = replacer_ pool1_unpinned_dirty
  /\ page_table_ pool1_unpinned = page_table_ pool1_unpinned_dirty
  /\ pool1_unpinned <> pool1_unpinned_dirty.
Proof.
  split; [apply pool1_unpinned_dirty_reachable|].
  split; [reflexivity|].
  split; [reflexivity|].
  split; [apply unpin_page_pool1_unpinned_dirty|].
  split; [reflexivity|].
  split; [reflexivity|].
  split; [reflexivity|].
  intros Heq. apply (f_equal (fun s => is_dirty_ <$> pages_ s)) in Heq.
  discriminate Heq.
Qed.

(** Claim C7 fails on the code.  [flush_page] returns [false] with the
    latch still held, both for the invalid page id and for a page that is
    not resident, and so does [fetch_page] when it finds no frame, where
    [new_page] releases the latch; after such a return the next call on
    the pool waits for the latch forever. *)
Theorem early_returns_keep_latch :
  BPM.FlushPageImpl INVALID_PAGE_ID pool1 = Returns false (set_latch Locked pool1)
  /\ BPM.FlushPageImpl 3 pool1 = Returns false (set_latch Locked pool1)
  /\ BPM.FetchPageImpl 3 pool1_pinned = Returns None (set_latch Locked pool1_pinned)
  /\ BPM.NewPageImpl pool1_pinned = Returns None pool1_pinned
  /\ BPM.UnpinPageImpl 0 false (set_latch Locked pool1_pinned) = Blocks
  /\ BPM.FetchPageImpl 0 (set_latch Locked pool1_pinned) = Blocks.
Proof.
  split; [apply FlushPageImpl_early_return; [reflexivity | by left]|].
  split; [apply FlushPageImpl_early_return; [reflexivity | by right]|].
  split; [apply FetchPageImpl_exhausted; [split| | |]; reflexivity|].
  split; [apply NewPageImpl_exhausted; [split| |]; reflexivity|].
  split; reflexivity.
Qed.

End Divergences.

(** ** The confirmed claims at a concrete pool *)

Section Instances.

(** [fetch_page 3] on the pool whose only frame is pinned: not resident, no
    free frame, nothing to evict, so [nullptr]. *)
Lemma FetchPageImpl_none_iff_example :
  idle pool1_pinned
  /\ frames_in_range pool1_pinned
  /\ exists r s',
       BPM.FetchPageImpl 3 pool1_pinned = Returns r s'
       /\ (r = None <->
           page_table_ pool1_pinned !! 3 = None
           /\ free_list_ pool1_pinned = []
           /\ LRUReplacer.victim_queue (replacer_ pool1_pinned) = [])
       /\ (forall frame_id, r = Some frame_id -> is_Some (frame_at frame_id (pages_ s'))).
Proof.
  assert (Hidle : idle pool1_pinned) by (split; reflexivity).
  assert (Hrange : frames_in_range pool1_pinned).
  { split; [|split; constructor].
    intros page_id frame_id Hlk. simpl in Hlk.
    apply lookup_singleton_Some in Hlk as [<- <-].
    eexists; split; reflexivity. }
  split; [exact Hidle|]. split; [exact Hrange|].
  exact (FetchPageImpl_none_iff pool1_pinned 3 Hidle Hrange).
Defined.

(** [delete_page 3] on the same pool: page 3 is not resident. *)
Lemma DeletePageImpl_not_resident_example :
  latch_ pool1_pinned = Unlocked
  /\ page_table_ pool1_pinned !! 3 = None
  /\ BPM.DeletePageImpl 3 pool1_pinned = Returns true pool1_pinned.
Proof.
  split; [reflexivity|]. split; [reflexivity|].
  exact (DeletePageImpl_not_resident pool1_pinned 3 eq_refl eq_refl).
Defined.

End Instances.

(** ** More on the replacer *)

Section ReplacerOrder.

Import LRUReplacer.

Implicit Types (r : LRUReplacer.t) (f : frame_id_t) (q : list frame_id_t).

Lemma erase_first_None f q : f ∉ q -> erase_first f q = None.
Proof.
  induction q as [|x q IH]; simpl; [reflexivity|].
  rewrite not_elem_of_cons. intros [Hne Hq].
  rewrite decide_False by congruence. by rewrite IH.
Qed.

Lemma erase_first_filter f q :
  NoDup q -> f ∈ q -> erase_first f q = Some (filter (fun x => x <> f) q).
Proof.
  induction q as [|x q IH]; simpl; intros Hnd Hin; [by apply elem_of_nil in Hin|].
  apply NoDup_cons in Hnd as [Hx Hnd].
  destruct (decide (x = f)) as [->|Hne].
  - rewrite filter_cons_False by (intros H; by apply H).
    f_equal. symmetry. clear IH Hin.
    induction q as [|y q IH]; [reflexivity|].
    apply not_elem_of_cons in Hx as [Hy Hq]. apply NoDup_cons in Hnd as [_ Hnd].
    rewrite filter_cons_True by congruence. f_equal. by apply IH.
  - apply elem_of_cons in Hin as [->|Hin]; [contradiction|].
    rewrite (IH Hnd Hin). simpl. by rewrite filter_cons_True.
Qed.

Lemma filter_ne_not_elem_of f q : f ∉ q -> filter (fun x => x <> f) q = q.
Proof.
  induction q as [|y q IH]; [reflexivity|].
  rewrite not_elem_of_cons. intros [Hne Hq].
  rewrite filter_cons_True by congruence. f_equal. by apply IH.
Qed.

Lemma Pin_filter r f :
  replacer_mutex r = Unlocked -> consistent r ->
  Pin f r = Returns tt
              (mk (max_pages r) (filter (fun x => x <> f) (victim_queue r))
                  (frame_in_replacer r ∖ {[f]}) Unlocked).
Proof.
  destruct r as [cap q g m]. intros Hm [Hnd Hiff]; simpl in *; subst m.
  unfold Pin; run_step.
  destruct (decide (f ∈ g)) as [Hin|Hout].
  - rewrite (erase_first_filter f q Hnd) by (by apply Hiff). reflexivity.
  - rewrite filter_ne_not_elem_of by (by rewrite <- Hiff).
    rewrite difference_disjoint_L by (by apply disjoint_singleton_r).
    reflexivity.
Qed.

(** [Unpin] of a frame that is not tracked, with room left: the frame goes
    to the tail of the sequence and into the set. *)
Lemma Unpin_admits r f :
  replacer_mutex r = Unlocked ->
  f ∉ frame_in_replacer r ->
  (length (victim_queue r) < max_pages r)%nat ->
  Unpin f r = Returns tt
                (mk (max_pages r) (victim_queue r ++ [f])
                    ({[f]} ∪ frame_in_replacer r) Unlocked).
Proof.
  destruct r as [cap q g m]; simpl. intros -> Hout Hlt.
  unfold Unpin; run_step.
  rewrite decide_False by assumption. rewrite decide_True by assumption.
  reflexivity.
Qed.

Lemma Unpin_drops r f :
  replacer_mutex r = Unlocked ->
  f ∉ frame_in_replacer r ->
  (max_pages r <= length (victim_queue r))%nat ->
  Unpin f r = Returns tt r.
Proof.
  destruct r as [cap q g m]; simpl. intros -> Hout Hge.
  unfold Unpin; run_step.
  rewrite decide_False by assumption. rewrite decide_False by lia.
  reflexivity.
Qed.

(** Property X4.  [Pin] undoes [Unpin]: a frame admitted by [Unpin] and pinned again
    leaves the replacer exactly as it was before the two calls. *)
Theorem Unpin_Pin_round_trip r f :
  replacer_mutex r = Unlocked -> consistent r ->
  f ∉ frame_in_replacer r ->
  (length (victim_queue r) < max_pages r)%nat ->
  exists r1, Unpin f r = Returns tt r1 /\ Pin f r1 = Returns tt r.
Proof.
  intros Hm Hc Hout Hlt.
  eexists. split; [by apply Unpin_admits|].
  rewrite Pin_filter; [|reflexivity|].
  - destruct r as [cap q g m]; simpl in *; subst m. f_equal. f_equal.
    + rewrite filter_app, filter_cons_False, filter_nil, app_nil_r
        by (intros H; by apply H).
      apply filter_ne_not_elem_of. by rewrite <- (proj2 Hc).
    + apply set_eq. intros x.
      rewrite elem_of_difference, elem_of_union, elem_of_singleton.
      split; [intros [[?|?] ?]; [contradiction|assumption]|].
      intros Hx. split; [by right|]. by intros ->.
  - eapply Unpin_consistent; [exact Hc|]. by apply Unpin_admits.
Qed.

Lemma unpin_each_appends l : forall r,
  replacer_mutex r = Unlocked ->
  NoDup l ->
  (forall f, f ∈ l -> f ∉ frame_in_replacer r) ->
  (length (victim_queue r) + length l <= max_pages r)%nat ->
  unpin_each l r = Returns tt
                     (mk (max_pages r) (victim_queue r ++ l)
                         (list_to_set l ∪ frame_in_replacer r) Unlocked).
Proof.
  induction l as [|f l IH]; intros r Hm Hnd Hout Hcap.
  - destruct r as [cap q g m]; simpl in *; subst m.
    rewrite app_nil_r, (left_id_L ∅ (∪)). reflexivity.
  - apply NoDup_cons in Hnd as [Hf Hnd]. simpl in Hcap.
    simpl. unfold bind at 1.
    rewrite Unpin_admits; [|assumption|apply Hout; left|lia].
    rewrite IH; simpl; [|reflexivity|assumption| |rewrite length_app; simpl; lia].
    + f_equal. f_equal.
      * by rewrite <- app_assoc.
      * apply set_eq. intros x. set_unfold. tauto.
    + intros x Hx. rewrite elem_of_union, elem_of_singleton.
      intros [->|Hg]; [contradiction|]. by apply (Hout x); [right|].
Qed.

Lemma victims_take n : forall r,
  replacer_mutex r = Unlocked ->
  victims n r = Returns (take n (victim_queue r))
                  (mk (max_pages r) (drop n (victim_queue r))
                      (frame_in_replacer r ∖ list_to_set (take n (victim_queue r)))
                      Unlocked).
Proof.
  induction n as [|n IH]; intros [cap q g m]; simpl; intros ->.
  - rewrite drop_0. unfold ret. f_equal. f_equal.
    apply set_eq. intros x. set_unfold. tauto.
  - destruct q as [|f rest].
    + unfold bind. rewrite Victim_empty by reflexivity. unfold ret; simpl.
      f_equal. f_equal. apply set_eq. intros x. set_unfold. tauto.
    + unfold bind at 1. rewrite (Victim_front _ f rest) by reflexivity.
      unfold bind. rewrite IH by reflexivity. unfold ret; simpl.
      f_equal. f_equal. apply set_eq. intros x. set_unfold. tauto.
Qed.

(** Property X5.  Least recently unpinned first: frames handed to [Unpin] one after the
    other come back from [Victim] in that same order, after the frames the
    replacer already held, and the replacer is empty afterwards. *)
Theorem victims_in_unpin_order r l :
  replacer_mutex r = Unlocked -> consistent r ->
  NoDup l ->
  (forall f, f ∈ l -> f ∉ frame_in_replacer r) ->
  (length (victim_queue r) + length l <= max_pages r)%nat ->
  exists r1,
    unpin_each l r = Returns tt r1
    /\ victims (length (victim_queue r ++ l)) r1
       = Returns (victim_queue r ++ l) (mk (max_pages r) [] ∅ Unlocked).
Proof.
  intros Hm [Hnd Hiff] Hl Hout Hcap.
  eexists. split; [by apply unpin_each_appends|].
  rewrite victims_take by reflexivity. simpl.
  rewrite firstn_all, drop_all. f_equal. f_equal.
  apply set_eq. intros x.
  rewrite elem_of_difference, elem_of_union, !elem_of_list_to_set, elem_of_app, Hiff.
  rewrite elem_of_empty. tauto.
Qed.

(** Property X6.  [Size] is the number of frames in the set. *)
Theorem Size_counts_members r :
  replacer_mutex r = Unlocked -> consistent r ->
  Size r = Returns (size (frame_in_replacer r)) r.
Proof.
  intros Hm [Hnd Hiff]. rewrite Size_length by assumption. f_equal.
  unfold size, set_size; simpl.
  apply Permutation_length, NoDup_Permutation; [assumption|apply NoDup_elements|].
  intros x. by rewrite elem_of_elements, Hiff.
Qed.

(** Property X1.  [Victim] hands out the head of the sequence, a frame of the set, and
    takes it out of both; it finds nothing exactly when [Size] is 0, and
    then changes nothing. *)
Theorem Victim_head r :
  replacer_mutex r = Unlocked -> consistent r ->
  exists v r',
    Victim r = Returns v r'
    /\ replacer_mutex r' = Unlocked
    /\ (v = None <-> Size r = Returns 0%nat r)
    /\ (v = None -> r' = r)
    /\ (forall f, v = Some f ->
          head (victim_queue r) = Some f
          /\ f ∈ frame_in_replacer r
          /\ (f ∉ frame_in_replacer r')
          /\ (f ∉ victim_queue r')
          /\ victim_queue r = f :: victim_queue r').
Proof.
  intros Hm Hc. rewrite Size_length by assumption.
  destruct (victim_queue r) as [|f rest] eqn:Hq.
  - rewrite (Victim_empty r Hm Hq). do 2 eexists. split; [reflexivity|].
    split; [assumption|]. split; [done|]. split; [done|]. discriminate.
  - rewrite (Victim_front r f rest Hm Hq). do 2 eexists. split; [reflexivity|].
    split; [reflexivity|]. split; [split; [discriminate|intros [= ?]]|].
    split; [discriminate|]. intros ? [= <-]. simpl.
    destruct Hc as [Hnd Hiff]. rewrite Hq in Hnd, Hiff.
    apply NoDup_cons in Hnd as [Hf _].
    split; [reflexivity|]. split; [apply Hiff; left|].
    split; [|split; [assumption|reflexivity]].
    rewrite elem_of_difference, elem_of_singleton. tauto.
Qed.

(** Property X7.  Every call on the replacer that is entered with its mutex free returns
    with the mutex free again and the capacity unchanged. *)
Theorem replacer_calls_release_mutex r f :
  replacer_mutex r = Unlocked ->
  (exists v r', Victim r = Returns v r'
                /\ replacer_mutex r' = Unlocked /\ max_pages r' = max_pages r)
  /\ (exists r', Pin f r = Returns tt r'
                 /\ replacer_mutex r' = Unlocked /\ max_pages r' = max_pages r)
  /\ (exists r', Unpin f r = Returns tt r'
                 /\ replacer_mutex r' = Unlocked /\ max_pages r' = max_pages r)
  /\ (exists n r', Size r = Returns n r'
                   /\ replacer_mutex r' = Unlocked /\ max_pages r' = max_pages r).
Proof.
  destruct r as [cap q g m]; simpl; intros ->.
  split; [|split; [|split]].
  - unfold Victim; run_step. destruct q; eauto 6.
  - unfold Pin; run_step. destruct (decide (f ∈ g)); [|eauto].
    destruct (erase_first f q); eauto.
  - unfold Unpin; run_step. destruct (decide (f ∈ g)); [eauto|].
    destruct (decide (length q < cap)%nat); eauto.
  - unfold Size; run_step. eauto 6.
Qed.

End ReplacerOrder.

(** ** Well-formedness is kept by every operation *)

Section ReplacerSteps.

Import LRUReplacer.

Implicit Types (r : LRUReplacer.t) (f : frame_id_t).

Lemma Pin_spec r f :
  replacer_mutex r = Unlocked -> consistent r ->
  exists r',
    Pin f r = Returns tt r'
    /\ replacer_mutex r' = Unlocked
    /\ max_pages r' = max_pages r
    /\ consistent r'
    /\ (length (victim_queue r') <= length (victim_queue r))%nat
    /\ (forall g, g ∈ frame_in_replacer r' <-> g ∈ frame_in_replacer r /\ g <> f).
Proof.
  intros Hm Hc. eexists. split; [by apply Pin_filter|]. simpl.
  split; [reflexivity|]. split; [reflexivity|].
  split; [eapply Pin_consistent; [exact Hc|by apply Pin_filter]|].
  split; [apply length_filter|].
  intros g. by rewrite elem_of_difference, elem_of_singleton.
Qed.

Lemma Victim_spec r :
  replacer_mutex r = Unlocked -> consistent r ->
  (victim_queue r = [] /\ Victim r = Returns None r)
  \/ (exists f r',
        Victim r = Returns (Some f) r'
        /\ f ∈ frame_in_replacer r
        /\ replacer_mutex r' = Unlocked
        /\ max_pages r' = max_pages r
        /\ consistent r'
        /\ (length (victim_queue r') <= length (victim_queue r))%nat
        /\ (forall g, g ∈ frame_in_replacer r' <-> g ∈ frame_in_replacer r /\ g <> f)).
Proof.
  intros Hm Hc. destruct (victim_queue r) as [|f rest] eqn:Hq.
  - left. split; [reflexivity|]. by apply Victim_empty.
  - right. do 2 eexists. split; [by apply Victim_front|]. simpl.
    split; [apply (proj2 Hc); rewrite Hq; left|].
    split; [reflexivity|]. split; [reflexivity|].
    split; [eapply Victim_consistent; [exact Hc|by apply Victim_front]|].
    split; [lia|].
    intros g. by rewrite elem_of_difference, elem_of_singleton.
Qed.

Lemma Unpin_spec r f :
  replacer_mutex r = Unlocked -> consistent r ->
  exists r',
    Unpin f r = Returns tt r'
    /\ replacer_mutex r' = Unlocked
    /\ max_pages r' = max_pages r
    /\ consistent r'
    /\ ((length (victim_queue r) <= max_pages r)%nat ->
        (length (victim_queue r') <= max_pages r)%nat)
    /\ (forall g, g ∈ frame_in_replacer r' -> g ∈ frame_in_replacer r \/ g = f).
Proof.
  intros Hm Hc.
  destruct (decide (f ∈ frame_in_replacer r)) as [Hin|Hout].
  { exists r. split; [by apply Unpin_member|].
    split; [assumption|]. split; [reflexivity|]. split; [assumption|].
    split; [tauto|]. intros g Hg. by left. }
  destruct (decide (length (victim_queue r) < max_pages r)%nat) as [Hlt|Hge].
  - eexists. split; [by apply Unpin_admits|]. simpl.
    split; [reflexivity|]. split; [reflexivity|].
    split; [eapply Unpin_consistent; [exact Hc|by apply Unpin_admits]|].
    split; [rewrite length_app; simpl; lia|].
    intros g. rewrite elem_of_union, elem_of_singleton. tauto.
  - exists r. split; [apply Unpin_drops; [assumption..|lia]|].
    split; [assumption|]. split; [reflexivity|]. split; [assumption|].
    split; [tauto|]. intros g Hg. by left.
Qed.

End ReplacerSteps.

Section FrameArray.

Implicit Types (pages : list Page) (f g : frame_id_t).

Lemma frame_at_nonneg f pages : is_Some (frame_at f pages) -> 0 <= f.
Proof. rewrite frame_at_Some. tauto. Qed.

Lemma frame_at_insert_ne f g pages (x : Page) :
  g <> f -> 0 <= f ->
  frame_at g (<[Z.to_nat f := x]> pages) = frame_at g pages.
Proof.
  intros Hne Hf. unfold frame_at. destruct (decide (0 <= g)); [|reflexivity].
  apply list_lookup_insert_ne. lia.
Qed.

Lemma frame_at_insert_id f pages (fr : Page) :
  frame_at f pages = Some fr -> <[Z.to_nat f := fr]> pages = pages.
Proof.
  unfold frame_at. destruct (decide (0 <= f)); [|discriminate].
  apply list_insert_id.
Qed.

Lemma frame_at_elem_of f pages (fr : Page) :
  frame_at f pages = Some fr -> fr ∈ pages.
Proof.
  unfold frame_at. destruct (decide (0 <= f)); [|discriminate].
  apply list_elem_of_lookup_2.
Qed.

End FrameArray.

Section WellFormed.

Implicit Types (s : BufferPoolManager) (f g : frame_id_t).

(** The shape every path of every operation has: one frame of the array
    rewritten, the replacer handed on by its own calls, page table and free
    list holding only frame ids they held before or the frame rewritten. *)
Lemma well_formed_update n s f x disk' r' table' free' l' :
  well_formed n s ->
  is_Some (frame_at f (pages_ s)) ->
  0 <= pin_count_ x ->
  LRUReplacer.replacer_mutex r' = Unlocked ->
  LRUReplacer.max_pages r' = n ->
  consistent r' ->
  (length (LRUReplacer.victim_queue r') <= n)%nat ->
  (forall g, g ∈ LRUReplacer.frame_in_replacer r' ->
             (g ∈ LRUReplacer.frame_in_replacer (replacer_ s) /\ g <> f)
             \/ (g = f /\ pin_count_ x = 0)) ->
  (forall page_id g, table' !! page_id = Some g ->
                     g = f \/ exists page_id', page_table_ s !! page_id' = Some g) ->
  (forall g, g ∈ free' -> g = f \/ g ∈ free_list_ s) ->
  well_formed n (mkBPM n (<[Z.to_nat f := x]> (pages_ s)) disk' r' table' free' l').
Proof.
  intros Hwf Hf Hx Hm Hmax Hc Hcap Hset Htable Hfree.
  pose proof (frame_at_nonneg _ _ Hf) as Hf0.
  constructor; simpl; try assumption.
  - reflexivity.
  - rewrite length_insert. apply Hwf.
  - intros g Hg. unfold evictable in Hg; simpl in Hg. unfold unpinned; simpl.
    destruct (Hset g Hg) as [[Hin Hne]|[-> Hzero]].
    + rewrite frame_at_insert_ne by assumption. by apply (wf_evictable _ _ Hwf).
    + exists x. split; [by apply frame_at_insert|assumption].
  - intros page_id g Hlk. apply frame_at_insert_is_Some.
    destruct (Htable page_id g Hlk) as [->|[page_id' Hlk']]; [assumption|].
    by apply (wf_page_table _ _ Hwf page_id').
  - apply Forall_forall. intros g Hg. apply frame_at_insert_is_Some.
    pose proof (wf_free_list _ _ Hwf) as Hall.
    rewrite Forall_forall in Hall.
    destruct (Hfree g Hg) as [->|Hin]; [assumption|by apply Hall].
  - apply Forall_insert; [apply Hwf|assumption].
Qed.

(** One frame rewritten with its pin count kept, the replacer untouched. *)
Lemma well_formed_same_pin n s f fr x disk' table' free' l' :
  well_formed n s ->
  frame_at f (pages_ s) = Some fr ->
  pin_count_ x = pin_count_ fr ->
  (forall page_id g, table' !! page_id = Some g ->
                     g = f \/ exists page_id', page_table_ s !! page_id' = Some g) ->
  (forall g, g ∈ free' -> g = f \/ g ∈ free_list_ s) ->
  well_formed n (mkBPM n (<[Z.to_nat f := x]> (pages_ s)) disk' (replacer_ s)
                       table' free' l').
Proof.
  intros Hwf Hfr Hx Htable Hfree.
  assert (Hpin : 0 <= pin_count_ fr).
  { pose proof (wf_pin_counts _ _ Hwf) as Hall.
    rewrite Forall_forall in Hall. by eapply Hall, frame_at_elem_of. }
  apply well_formed_update; try assumption; try apply Hwf.
  - by rewrite Hfr.
  - lia.
  - intros g Hg. destruct (decide (g = f)) as [->|Hne]; [right|by left].
    split; [reflexivity|]. rewrite Hx.
    destruct (wf_evictable _ _ Hwf f Hg) as (fr' & Hfr' & Hzero). congruence.
Qed.

(** A page installed in a frame taken from the free list or from the
    replacer, as [FetchPageImpl] and [NewPageImpl] do. *)
Lemma well_formed_install n s f fr r1 free' page_id x disk' r2 l' :
  well_formed n s ->
  frame_at f (pages_ s) = Some fr ->
  LRUReplacer.replacer_mutex r1 = Unlocked ->
  LRUReplacer.max_pages r1 = n ->
  consistent r1 ->
  (length (LRUReplacer.victim_queue r1) <= n)%nat ->
  (forall g, g ∈ LRUReplacer.frame_in_replacer r1 ->
             g ∈ LRUReplacer.frame_in_replacer (replacer_ s)) ->
  (forall g, g ∈ free' -> g ∈ free_list_ s) ->
  LRUReplacer.Pin f r1 = Returns tt r2 ->
  0 <= pin_count_ x ->
  well_formed n (mkBPM n (<[Z.to_nat f := x]> (pages_ s)) disk' r2
                       (<[page_id := f]> (delete (page_id_ fr) (page_table_ s)))
                       free' l').
Proof.
  intros Hwf Hfr Hm1 Hmax1 Hc1 Hcap1 Hsub Hfree HPin Hx.
  destruct (Pin_spec r1 f Hm1 Hc1) as (r' & HPin' & Hm' & Hmax' & Hc' & Hlen' & Hset').
  rewrite HPin in HPin'. injection HPin' as <-.
  apply well_formed_update; try assumption.
  - by rewrite Hfr.
  - congruence.
  - lia.
  - intros g Hg. left. apply Hset' in Hg as [Hg ?]. split; [by apply Hsub|assumption].
  - intros pid g Hg. apply lookup_insert_Some in Hg as [[_ <-]|[_ Hg]]; [by left|].
    apply lookup_delete_Some in Hg as [_ Hg]. right. by exists pid.
  - intros g Hg. right. by apply Hfree.
Qed.

(** The same with no frame rewritten. *)
Lemma well_formed_frame n s disk' table' free' l' :
  well_formed n s ->
  (forall page_id g, table' !! page_id = Some g ->
                     exists page_id', page_table_ s !! page_id' = Some g) ->
  (forall g, g ∈ free' -> g ∈ free_list_ s) ->
  well_formed n (mkBPM n (pages_ s) disk' (replacer_ s) table' free' l').
Proof.
  intros Hwf Htable Hfree.
  constructor; simpl; try apply Hwf.
  - reflexivity.
  - intros page_id g Hlk. destruct (Htable page_id g Hlk) as [page_id' Hlk'].
    by apply (wf_page_table _ _ Hwf page_id').
  - apply Forall_forall. intros g Hg.
    pose proof (wf_free_list _ _ Hwf) as Hall.
    rewrite Forall_forall in Hall. by apply Hall, Hfree.
Qed.

End WellFormed.

Ltac run_bpm_in H :=
  cbv beta iota delta
    [bind ret get gets modify undefined on_field mutex_lock mutex_unlock
     BPM.latch_lock BPM.latch_unlock BPM.replacer BPM.disk_manager
     BPM.frame BPM.frame_set BPM.frame_pin_count_incr BPM.take_frame
     BPM.page_table_subscript
     Disk.WritePage Disk.ReadPage Disk.AllocatePage Disk.DeallocatePage
     set_pages set_disk_manager set_replacer set_page_table set_free_list
     set_latch pool_size_ pages_ disk_manager_ replacer_ page_table_
     free_list_ latch_ disk_pages next_page_id disk_calls] in H.

Ltac frames_in H :=
  repeat (rewrite frame_at_insert in H
            by (repeat apply frame_at_insert_is_Some; eauto)).

Section Preservation.

Implicit Types (s : BufferPoolManager) (f g : frame_id_t).

Lemma wf_pin_nonneg n s f fr :
  well_formed n s -> frame_at f (pages_ s) = Some fr -> 0 <= pin_count_ fr.
Proof.
  intros Hwf Hfr. pose proof (wf_pin_counts _ _ Hwf) as Hall.
  rewrite Forall_forall in Hall. by eapply Hall, frame_at_elem_of.
Qed.

Lemma FetchPageImpl_well_formed n s page_id r s' :
  well_formed n s ->
  BPM.FetchPageImpl page_id s = Returns r s' ->
  well_formed n s'.
Proof.
  intros Hwf H.
  pose proof (wf_replacer_mutex _ _ Hwf) as Hm.
  pose proof (wf_consistent _ _ Hwf) as Hc.
  pose proof (wf_max_pages _ _ Hwf) as Hmax.
  pose proof (wf_capacity _ _ Hwf) as Hcap.
  pose proof (wf_pool_size _ _ Hwf) as Hn.
  destruct s as [n0 pages disk repl table free l]; simpl in *; subst n0.
  unfold BPM.FetchPageImpl in H; run_bpm_in H.
  destruct l; [|discriminate].
  destruct (table !! page_id) as [f|] eqn:Hlk.
  - destruct (Pin_spec repl f Hm Hc) as (r' & HPin & Hm' & Hmax' & Hc' & Hlen' & Hset').
    rewrite HPin in H. run_bpm_in H.
    destruct (frame_at f pages) as [fr|] eqn:Hfr; [|discriminate].
    destruct (decide (pin_count_ fr < INT_MAX)); [|discriminate].
    run_bpm_in H. rewrite Hfr in H. injection H as <- <-.
    pose proof (wf_pin_nonneg _ _ f fr Hwf Hfr).
    apply (well_formed_update n _ f _ _ _ _ _ _ Hwf); simpl;
      [by rewrite Hfr|lia|assumption|congruence|assumption|lia| | |auto].
    + intros g Hg. left. by apply Hset'.
    + intros pid g Hg. right. by exists pid.
  - destruct free as [|f rest].
    + destruct (Victim_spec repl Hm Hc) as [[Hq HV]|(f & r1 & HV & Hin & Hm1 & Hmax1 & Hc1 & Hlen1 & Hset1)];
        rewrite HV in H.
      * injection H as <- <-. by apply (well_formed_frame n _ _ _ _ _ Hwf); simpl; eauto.
      * destruct (frame_at f pages) as [fr|] eqn:Hfr; [|discriminate].
        destruct (Pin_spec r1 f Hm1 Hc1) as (r2 & HPin & _).
        destruct (is_dirty_ fr); run_bpm_in H; rewrite Hfr in H; frames_in H;
          rewrite HPin in H; injection H as <- <-;
          rewrite !list_insert_insert_eq;
          (apply (well_formed_install n _ f fr r1 [] page_id _ _ _ _ Hwf Hfr Hm1);
           simpl; [congruence|assumption|lia| |auto|exact HPin|lia]);
          intros g Hg; by apply Hset1.
    + destruct (frame_at f pages) as [fr|] eqn:Hfr; [|discriminate].
      destruct (Pin_spec repl f Hm Hc) as (r2 & HPin & _).
      destruct (is_dirty_ fr); run_bpm_in H; rewrite Hfr in H; frames_in H;
        rewrite HPin in H; injection H as <- <-;
        rewrite !list_insert_insert_eq;
        (apply (well_formed_install n _ f fr repl rest page_id _ _ _ _ Hwf Hfr Hm);
         simpl; [congruence|assumption|lia|auto| |exact HPin|lia]);
        intros g Hg; by right.
Qed.

Lemma UnpinPageImpl_well_formed n s page_id is_dirty r s' :
  well_formed n s ->
  BPM.UnpinPageImpl page_id is_dirty s = Returns r s' ->
  well_formed n s'.
Proof.
  intros Hwf H.
  pose proof (wf_replacer_mutex _ _ Hwf) as Hm.
  pose proof (wf_consistent _ _ Hwf) as Hc.
  pose proof (wf_max_pages _ _ Hwf) as Hmax.
  pose proof (wf_capacity _ _ Hwf) as Hcap.
  pose proof (wf_pool_size _ _ Hwf) as Hn.
  destruct s as [n0 pages disk repl table free l]; simpl in *; subst n0.
  unfold BPM.UnpinPageImpl in H; run_bpm_in H.
  destruct l; [|discriminate].
  assert (Hrest : forall f table',
    (forall pid g, table' !! pid = Some g ->
                   g = f \/ exists pid', table !! pid' = Some g) ->
    forall fr, frame_at f pages = Some fr ->
    (pin_count_ fr <= 0 ->
     well_formed n (mkBPM n (<[Z.to_nat f := set_is_dirty is_dirty fr]> pages)
                          disk repl table' free Unlocked))
    /\ (0 < pin_count_ fr ->
        forall r',
          (if decide (pin_count_ fr - 1 = 0)
           then LRUReplacer.Unpin f repl = Returns tt r'
           else r' = repl) ->
          well_formed n
            (mkBPM n (<[Z.to_nat f := set_pin_count (pin_count_ fr - 1)
                                        (set_is_dirty is_dirty fr)]> pages)
                   disk r' table' free Unlocked))).
  { intros f table' Htable fr Hfr. split.
    - intros Hle.
      apply (well_formed_same_pin n _ f fr _ _ _ _ _ Hwf Hfr); simpl; auto.
    - intros Hgt r' Hr'.
      assert (Hf : f ∉ LRUReplacer.frame_in_replacer repl).
      { intros Hin. destruct (wf_evictable _ _ Hwf f Hin) as (fr' & Hfr' & Hzero).
        simpl in Hfr'. rewrite Hfr in Hfr'. injection Hfr' as <-. lia. }
      destruct (Unpin_spec repl f Hm Hc) as (r1 & HU & Hm1 & Hmax1 & Hc1 & Hlen1 & Hset1).
      destruct (decide (pin_count_ fr - 1 = 0)) as [Hzero|Hnz].
      + rewrite HU in Hr'. injection Hr' as <-.
        apply (well_formed_update n _ f _ _ _ _ _ _ Hwf); simpl;
          [by rewrite Hfr|lia|assumption|congruence|assumption|lia| |assumption|auto].
        intros g Hg. destruct (Hset1 g Hg) as [Hin| ->]; [left|by right].
        split; [assumption|]. by intros ->.
      + subst r'.
        apply (well_formed_update n _ f _ _ _ _ _ _ Hwf); simpl;
          [by rewrite Hfr|lia|assumption|congruence|assumption|lia| |assumption|auto].
        intros g Hg. left. split; [assumption|]. by intros ->. }
  lazymatch type of H with
  | context [table !! page_id] =>
      destruct (table !! page_id) as [f|] eqn:Hlk;
      [ specialize (Hrest f table) | specialize (Hrest 0 (<[page_id := 0]> table)) ]
  end.
  - destruct (frame_at f pages) as [fr|] eqn:Hfr; [|discriminate].
    destruct (Hrest (fun pid g Hg => or_intror (ex_intro _ pid Hg)) fr eq_refl)
      as [Hle Hgt].
    frames_in H. simpl in H.
    destruct (decide (pin_count_ fr <= 0)).
    + injection H as <- <-. by apply Hle.
    + run_bpm_in H. frames_in H. simpl in H. rewrite list_insert_insert_eq in H.
      destruct (decide (pin_count_ fr - 1 = 0)) as [Hzero|Hnz].
      * destruct (LRUReplacer.Unpin f repl) as [[] r'| |] eqn:HU; [|discriminate..].
        injection H as <- <-. apply Hgt; [lia|reflexivity].
      * injection H as <- <-. apply Hgt; [lia|reflexivity].
  - destruct (frame_at 0 pages) as [fr|] eqn:Hfr; [|discriminate].
    assert (Htable : forall pid g, <[page_id := 0]> table !! pid = Some g ->
                                   g = 0 \/ exists pid', table !! pid' = Some g).
    { intros pid g Hg. apply lookup_insert_Some in Hg as [[_ <-]|[_ Hg]]; [by left|].
      right. by exists pid. }
    destruct (Hrest Htable fr eq_refl) as [Hle Hgt].
    frames_in H. simpl in H.
    destruct (decide (pin_count_ fr <= 0)).
    + injection H as <- <-. by apply Hle.
    + run_bpm_in H. frames_in H. simpl in H. rewrite list_insert_insert_eq in H.
      destruct (decide (pin_count_ fr - 1 = 0)) as [Hzero|Hnz].
      * destruct (LRUReplacer.Unpin 0 repl) as [[] r'| |] eqn:HU; [|discriminate..].
        injection H as <- <-. apply Hgt; [lia|reflexivity].
      * injection H as <- <-. apply Hgt; [lia|reflexivity].
Qed.

Lemma FlushPageImpl_well_formed n s page_id r s' :
  well_formed n s ->
  BPM.FlushPageImpl page_id s = Returns r s' ->
  well_formed n s'.
Proof.
  intros Hwf H.
  pose proof (wf_pool_size _ _ Hwf) as Hn.
  destruct s as [n0 pages disk repl table free l]; simpl in *; subst n0.
  unfold BPM.FlushPageImpl in H; run_bpm_in H.
  destruct l; [|discriminate].
  destruct (decide (page_id = INVALID_PAGE_ID)).
  { injection H as <- <-. apply (well_formed_frame n _ _ _ _ _ Hwf); simpl; eauto. }
  run_bpm_in H.
  destruct (table !! page_id) as [f|] eqn:Hlk.
  - destruct (frame_at f pages) as [fr|] eqn:Hfr; [|discriminate].
    run_bpm_in H. rewrite Hfr in H. injection H as <- <-.
    apply (well_formed_same_pin n _ f fr _ _ _ _ _ Hwf Hfr); simpl; eauto.
  - injection H as <- <-. apply (well_formed_frame n _ _ _ _ _ Hwf); simpl; eauto.
Qed.

Lemma NewPageImpl_well_formed n s r s' :
  well_formed n s ->
  BPM.NewPageImpl s = Returns r s' ->
  well_formed n s'.
Proof.
  intros Hwf H.
  pose proof (wf_replacer_mutex _ _ Hwf) as Hm.
  pose proof (wf_consistent _ _ Hwf) as Hc.
  pose proof (wf_max_pages _ _ Hwf) as Hmax.
  pose proof (wf_capacity _ _ Hwf) as Hcap.
  pose proof (wf_pool_size _ _ Hwf) as Hn.
  destruct s as [n0 pages disk repl table free l]; simpl in *; subst n0.
  unfold BPM.NewPageImpl in H; run_bpm_in H.
  destruct l; [|discriminate].
  destruct free as [|f rest].
  - destruct (Victim_spec repl Hm Hc)
      as [[Hq HV]|(f & r1 & HV & Hin & Hm1 & Hmax1 & Hc1 & Hlen1 & Hset1)];
      rewrite HV in H.
    + injection H as <- <-. by apply (well_formed_frame n _ _ _ _ _ Hwf); simpl; eauto.
    + destruct (frame_at f pages) as [fr|] eqn:Hfr; [|discriminate].
      destruct (Pin_spec r1 f Hm1 Hc1) as (r2 & HPin & _).
      destruct (decide (page_id_ fr <> INVALID_PAGE_ID));
        run_bpm_in H; rewrite Hfr in H; frames_in H;
        rewrite HPin in H; run_bpm_in H; frames_in H; injection H as <- <-;
        rewrite !list_insert_insert_eq;
        (apply (well_formed_install n _ f fr r1 [] _ _ _ _ _ Hwf Hfr Hm1);
         simpl; [congruence|assumption|lia| |auto|exact HPin|lia]);
        intros g Hg; by apply Hset1.
  - destruct (frame_at f pages) as [fr|] eqn:Hfr; [|discriminate].
    destruct (Pin_spec repl f Hm Hc) as (r2 & HPin & _).
    destruct (decide (page_id_ fr <> INVALID_PAGE_ID));
      run_bpm_in H; rewrite Hfr in H; frames_in H;
      rewrite HPin in H; run_bpm_in H; frames_in H; injection H as <- <-;
      rewrite !list_insert_insert_eq;
      (apply (well_formed_install n _ f fr repl rest _ _ _ _ _ Hwf Hfr Hm);
       simpl; [congruence|assumption|lia|auto| |exact HPin|lia]);
      intros g Hg; by right.
Qed.

Lemma DeletePageImpl_well_formed n s page_id r s' :
  well_formed n s ->
  BPM.DeletePageImpl page_id s = Returns r s' ->
  well_formed n s'.
Proof.
  intros Hwf H.
  pose proof (wf_pool_size _ _ Hwf) as Hn.
  destruct s as [n0 pages disk repl table free l]; simpl in *; subst n0.
  unfold BPM.DeletePageImpl in H; run_bpm_in H.
  destruct l; [|discriminate].
  destruct (table !! page_id) as [f|] eqn:Hlk.
  - run_bpm_in H. rewrite Hlk in H.
    destruct (frame_at f pages) as [fr|] eqn:Hfr; [|discriminate].
    destruct (decide (pin_count_ fr > 0)).
    + injection H as <- <-. apply (well_formed_frame n _ _ _ _ _ Hwf); simpl; eauto.
    + run_bpm_in H. rewrite Hfr in H. frames_in H. injection H as <- <-.
      rewrite list_insert_insert_eq.
      apply (well_formed_same_pin n _ f fr _ _ _ _ _ Hwf Hfr); simpl.
      * reflexivity.
      * intros pid g Hg. apply lookup_delete_Some in Hg as [_ Hg]. right. by exists pid.
      * intros g Hg. apply elem_of_app in Hg as [Hg|Hg]; [by right|].
        apply list_elem_of_singleton in Hg. by left.
  - injection H as <- <-. apply (well_formed_frame n _ _ _ _ _ Hwf); simpl; eauto.
Qed.

End Preservation.

(** ** The invariant of reachable pools *)

Section Invariant.

Implicit Types (s : BufferPoolManager) (f g : frame_id_t).

Lemma static_cast_int_small (i : nat) :
  Z.of_nat i < 2147483648 -> static_cast_int (Z.of_nat i) = Z.of_nat i.
Proof.
  intros Hi. unfold static_cast_int.
  rewrite Z.mod_small by lia. lia.
Qed.

Lemma frame_at_replicate (i n : nat) (p : Page) :
  (i < n)%nat -> frame_at (Z.of_nat i) (replicate n p) = Some p.
Proof.
  intros Hi. unfold frame_at. rewrite decide_True by lia.
  rewrite Nat2Z.id. by apply lookup_replicate_2.
Qed.

Lemma new_pool_facts (n : nat) (disk : DiskManager) :
  Z.of_nat n <= 2147483648 ->
  well_formed n (BPM.new n disk)
  /\ free_list_ (BPM.new n disk) = Z.of_nat <$> seq 0 n
  /\ page_table_ (BPM.new n disk) = ∅
  /\ (forall f, ~ evictable f (BPM.new n disk))
  /\ (forall f fr, frame_at f (pages_ (BPM.new n disk)) = Some fr -> fr = new_Page)
  /\ idle (BPM.new n disk).
Proof.
  intros Hn.
  assert (Hfree : free_list_ (BPM.new n disk) = Z.of_nat <$> seq 0 n).
  { simpl. unfold fmap, list_fmap. apply map_ext_in. intros i Hi.
    apply in_seq in Hi. apply static_cast_int_small. lia. }
  split; [|split; [exact Hfree|split; [reflexivity|split; [|split]]]].
  - constructor; try reflexivity.
    + simpl. apply length_replicate.
    + apply new_consistent.
    + simpl. lia.
    + intros f Hf. unfold evictable in Hf; simpl in Hf. by apply elem_of_empty in Hf.
    + intros page_id f Hlk. simpl in Hlk. by rewrite lookup_empty in Hlk.
    + rewrite Hfree. apply Forall_forall. intros f Hf.
      apply list_elem_of_fmap in Hf as (i & -> & Hi).
      apply elem_of_seq in Hi. simpl. rewrite frame_at_replicate by lia. eauto.
    + simpl. apply Forall_forall. intros fr Hfr.
      apply elem_of_replicate in Hfr as [-> _]. simpl. lia.
  - intros f Hf. unfold evictable in Hf; simpl in Hf. by apply elem_of_empty in Hf.
  - intros f fr Hfr. simpl in Hfr. unfold frame_at in Hfr.
    destruct (decide (0 <= f)); [|discriminate].
    apply list_elem_of_lookup_2, elem_of_replicate in Hfr. tauto.
  - split; reflexivity.
Qed.

Lemma step_well_formed n s s' :
  well_formed n s -> step s s' -> well_formed n s'.
Proof.
  intros Hwf Hstep. revert Hwf.
  destruct Hstep as [page_id r s0 s0' H|page_id d r s0 s0' H|page_id r s0 s0' H
                    |r s0 s0' H|page_id r s0 s0' H]; intros Hwf.
  - exact (FetchPageImpl_well_formed n _ _ _ _ Hwf H).
  - exact (UnpinPageImpl_well_formed n _ _ _ _ _ Hwf H).
  - exact (FlushPageImpl_well_formed n _ _ _ _ Hwf H).
  - exact (NewPageImpl_well_formed n _ _ _ Hwf H).
  - exact (DeletePageImpl_well_formed n _ _ _ _ Hwf H).
Qed.

Lemma well_formed_reachable (n : nat) s :
  Z.of_nat n <= 2147483648 ->
  reachable n s -> well_formed n s.
Proof.
  intros Hn. induction 1 as [|s s' _ IH Hstep].
  - by apply new_pool_facts.
  - exact (step_well_formed n s s' IH Hstep).
Qed.

(** Property X10.  The replacer never offers a pinned frame: whatever [Victim] hands out
    in a reachable pool is a frame of the array with pin count 0. *)
Theorem victim_is_unpinned (n : nat) s f r' :
  Z.of_nat n <= 2147483648 ->
  reachable n s ->
  LRUReplacer.Victim (replacer_ s) = Returns (Some f) r' ->
  exists fr, frame_at f (pages_ s) = Some fr /\ pin_count_ fr = 0.
Proof.
  intros Hn Hreach HV.
  pose proof (well_formed_reachable n s Hn Hreach) as Hwf.
  destruct (Victim_spec (replacer_ s) (wf_replacer_mutex _ _ Hwf) (wf_consistent _ _ Hwf))
    as [[_ HV']|(f' & r1 & HV' & Hin & _)]; rewrite HV' in HV; [discriminate|].
  injection HV as <- <-. by apply (wf_evictable _ _ Hwf).
Qed.

End Invariant.

(** ** What each operation does to a pool *)

Section Effects.

Implicit Types (s : BufferPoolManager) (f g : frame_id_t).

Lemma Pin_without r f :
  LRUReplacer.replacer_mutex r = Unlocked -> consistent r ->
  LRUReplacer.Pin f r = Returns tt (without f r).
Proof. apply Pin_filter. Qed.

Lemma Victim_Pin_without r f rest :
  LRUReplacer.replacer_mutex r = Unlocked -> consistent r ->
  LRUReplacer.victim_queue r = f :: rest ->
  exists r1,
    LRUReplacer.Victim r = Returns (Some f) r1
    /\ LRUReplacer.Pin f r1 = Returns tt (without f r).
Proof.
  intros Hm Hc Hq. eexists. split; [by apply Victim_front|].
  rewrite Pin_filter;
    [|reflexivity|eapply Victim_consistent; [exact Hc|by apply Victim_front]].
  unfold without; simpl. destruct Hc as [Hnd Hiff]. rewrite Hq in *.
  apply NoDup_cons in Hnd as [Hf Hnd].
  rewrite filter_cons_False by (intros H; by apply H).
  f_equal. f_equal. apply set_eq. intros x.
  rewrite !elem_of_difference. tauto.
Qed.

Lemma fetch_hit s page_id f fr :
  idle s -> consistent (replacer_ s) ->
  page_table_ s !! page_id = Some f ->
  frame_at f (pages_ s) = Some fr ->
  pin_count_ fr < INT_MAX ->
  BPM.FetchPageImpl page_id s
  = Returns (Some f)
      (set_pages (<[Z.to_nat f := set_pin_count (pin_count_ fr + 1) fr]> (pages_ s))
         (set_replacer (without f (replacer_ s)) s)).
Proof.
  destruct s as [n pages disk repl table free l].
  intros [Hl Hm] Hc Hlk Hfr Hlt; simpl in *; subst l.
  unfold BPM.FetchPageImpl; run_bpm.
  rewrite Hlk, (Pin_without repl f Hm Hc). run_bpm.
  rewrite Hfr, decide_True by assumption. rewrite Hfr. reflexivity.
Qed.

Lemma fetch_miss s page_id f fr :
  idle s -> consistent (replacer_ s) ->
  page_table_ s !! page_id = None ->
  chosen_frame s = Some f ->
  frame_at f (pages_ s) = Some fr ->
  let disk1 := if is_dirty_ fr
               then written (page_id_ fr) (data_ fr) (disk_manager_ s)
               else disk_manager_ s in
  BPM.FetchPageImpl page_id s
  = Returns (Some f)
      (mkBPM (pool_size_ s)
             (<[Z.to_nat f := mkPage (default zero_bytes (disk_pages disk1 !! page_id))
                                     page_id 1 false]> (pages_ s))
             (mkDisk (disk_pages disk1) (next_page_id disk1)
                     (ReadPageCall page_id :: disk_calls disk1))
             (without f (replacer_ s))
             (<[page_id := f]> (delete (page_id_ fr) (page_table_ s)))
             (tail (free_list_ s))
             Unlocked).
Proof.
  destruct s as [n pages disk repl table free l].
  intros [Hl Hm] Hc Hlk Hchosen Hfr; simpl in *; subst l.
  unfold chosen_frame in Hchosen; simpl in Hchosen.
  unfold BPM.FetchPageImpl; run_bpm. rewrite Hlk.
  destruct free as [|f0 rest].
  - destruct (LRUReplacer.victim_queue repl) as [|f0 rest] eqn:Hq; [discriminate|].
    injection Hchosen as ->.
    destruct (Victim_Pin_without repl f rest Hm Hc Hq) as (r1 & -> & HPin).
    rewrite Hfr.
    destruct (is_dirty_ fr); run_bpm; rewrite Hfr; frames; rewrite HPin;
      rewrite !list_insert_insert_eq; reflexivity.
  - injection Hchosen as ->. rewrite Hfr.
    destruct (is_dirty_ fr); run_bpm; rewrite Hfr; frames;
      rewrite (Pin_without repl f Hm Hc);
      rewrite !list_insert_insert_eq; reflexivity.
Qed.

Lemma new_page_run s f fr :
  idle s -> consistent (replacer_ s) ->
  chosen_frame s = Some f ->
  frame_at f (pages_ s) = Some fr ->
  let id := next_page_id (disk_manager_ s) in
  let disk1 := mkDisk (disk_pages (disk_manager_ s)) (id + 1)
                      (AllocatePageCall id :: disk_calls (disk_manager_ s)) in
  let disk2 := if decide (page_id_ fr = INVALID_PAGE_ID) then disk1
               else written (page_id_ fr) (data_ fr) disk1 in
  BPM.NewPageImpl s
  = Returns (Some (id, f))
      (mkBPM (pool_size_ s)
             (<[Z.to_nat f := mkPage zero_bytes id 1 false]> (pages_ s))
             disk2
             (without f (replacer_ s))
             (<[id := f]> (delete (page_id_ fr) (page_table_ s)))
             (tail (free_list_ s))
             Unlocked).
Proof.
  destruct s as [n pages disk repl table free l].
  intros [Hl Hm] Hc Hchosen Hfr; simpl in *; subst l.
  unfold chosen_frame in Hchosen; simpl in Hchosen.
  unfold BPM.NewPageImpl; run_bpm.
  destruct free as [|f0 rest].
  - destruct (LRUReplacer.victim_queue repl) as [|f0 rest] eqn:Hq; [discriminate|].
    injection Hchosen as ->.
    destruct (Victim_Pin_without repl f rest Hm Hc Hq) as (r1 & -> & HPin).
    rewrite Hfr.
    destruct (decide (page_id_ fr = INVALID_PAGE_ID)) as [Heq|Hne];
      [rewrite decide_False by (intros H; by apply H)
      |rewrite decide_True by assumption];
      run_bpm; rewrite Hfr; frames; rewrite HPin; run_bpm; frames;
      rewrite !list_insert_insert_eq; reflexivity.
  - injection Hchosen as ->. rewrite Hfr.
    destruct (decide (page_id_ fr = INVALID_PAGE_ID)) as [Heq|Hne];
      [rewrite decide_False by (intros H; by apply H)
      |rewrite decide_True by assumption];
      run_bpm; rewrite Hfr; frames; rewrite (Pin_without repl f Hm Hc);
      run_bpm; frames; rewrite !list_insert_insert_eq; reflexivity.
Qed.

Lemma flush_run s page_id f fr :
  latch_ s = Unlocked ->
  page_id <> INVALID_PAGE_ID ->
  page_table_ s !! page_id = Some f ->
  frame_at f (pages_ s) = Some fr ->
  BPM.FlushPageImpl page_id s
  = Returns true
      (set_pages (<[Z.to_nat f := set_is_dirty false fr]> (pages_ s))
         (set_disk_manager (written page_id (data_ fr) (disk_manager_ s)) s)).
Proof.
  destruct s as [n pages disk repl table free l]; simpl.
  intros -> Hvalid Hlk Hfr.
  unfold BPM.FlushPageImpl; run_bpm.
  rewrite decide_False by assumption. run_bpm.
  rewrite Hlk, Hfr. run_bpm. rewrite Hfr. reflexivity.
Qed.

Lemma delete_absent_run s page_id :
  latch_ s = Unlocked ->
  page_table_ s !! page_id = None ->
  BPM.DeletePageImpl page_id s = Returns true s.
Proof.
  destruct s as [n pages disk repl table free l]; simpl.
  intros -> Hlk.
  unfold BPM.DeletePageImpl; run_bpm.
  rewrite Hlk. reflexivity.
Qed.

Lemma delete_pinned_run s page_id f fr :
  latch_ s = Unlocked ->
  page_table_ s !! page_id = Some f ->
  frame_at f (pages_ s) = Some fr ->
  0 < pin_count_ fr ->
  BPM.DeletePageImpl page_id s = Returns false s.
Proof.
  destruct s as [n pages disk repl table free l]; simpl.
  intros -> Hlk Hfr Hpin.
  unfold BPM.DeletePageImpl; run_bpm.
  rewrite Hlk. run_bpm. rewrite Hlk, Hfr.
  rewrite decide_True by lia. reflexivity.
Qed.

Lemma delete_unpinned_run s page_id f fr :
  latch_ s = Unlocked ->
  page_table_ s !! page_id = Some f ->
  frame_at f (pages_ s) = Some fr ->
  pin_count_ fr <= 0 ->
  BPM.DeletePageImpl page_id s
  = Returns true
      (mkBPM (pool_size_ s)
             (<[Z.to_nat f := mkPage (data_ fr) INVALID_PAGE_ID (pin_count_ fr) false]>
                (pages_ s))
             (mkDisk (disk_pages (disk_manager_ s)) (next_page_id (disk_manager_ s))
                     (DeallocatePageCall page_id :: disk_calls (disk_manager_ s)))
             (replacer_ s)
             (delete page_id (page_table_ s))
             (free_list_ s ++ [f])
             Unlocked).
Proof.
  destruct s as [n pages disk repl table free l]; simpl.
  intros -> Hlk Hfr Hpin.
  unfold BPM.DeletePageImpl; run_bpm.
  rewrite Hlk. run_bpm. rewrite Hlk, Hfr.
  rewrite decide_False by lia. run_bpm. rewrite Hfr. frames.
  rewrite list_insert_insert_eq. reflexivity.
Qed.

End Effects.

Section MoreEffects.

Implicit Types (s : BufferPoolManager) (f g : frame_id_t).

(** A well-formed pool always has room in the replacer for a frame that is
    not in it yet. *)
Lemma wf_room n s f :
  well_formed n s ->
  is_Some (frame_at f (pages_ s)) ->
  f ∉ LRUReplacer.frame_in_replacer (replacer_ s) ->
  (length (LRUReplacer.victim_queue (replacer_ s)) < n)%nat.
Proof.
  intros Hwf Hf Hout.
  destruct (wf_consistent _ _ Hwf) as [Hnd Hiff].
  set (q := LRUReplacer.victim_queue (replacer_ s)) in *.
  assert (Hlen : (length (f :: q) <= length (Z.of_nat <$> seq 0 n))%nat).
  { apply submseteq_length, NoDup_submseteq.
    - apply NoDup_cons. split; [by rewrite <- Hiff|assumption].
    - intros x Hx.
      assert (Hsome : is_Some (frame_at x (pages_ s))).
      { apply elem_of_cons in Hx as [->|Hx]; [assumption|].
        apply Hiff in Hx. destruct (wf_evictable _ _ Hwf x Hx) as (fr & -> & _). eauto. }
      apply frame_at_Some in Hsome as [H0 Hlt]. rewrite (wf_pages _ _ Hwf) in Hlt.
      apply list_elem_of_fmap. exists (Z.to_nat x). split; [lia|].
      apply elem_of_seq. lia. }
  rewrite length_fmap, length_seq in Hlen. simpl in Hlen. lia.
Qed.

Lemma unpin_resident n s page_id is_dirty f fr :
  well_formed n s ->
  latch_ s = Unlocked ->
  page_table_ s !! page_id = Some f ->
  frame_at f (pages_ s) = Some fr ->
  BPM.UnpinPageImpl page_id is_dirty s
  = if decide (pin_count_ fr <= 0) then
      Returns false
        (set_pages (<[Z.to_nat f := set_is_dirty is_dirty fr]> (pages_ s)) s)
    else
      Returns true
        (set_pages
           (<[Z.to_nat f := mkPage (data_ fr) (page_id_ fr) (pin_count_ fr - 1) is_dirty]>
              (pages_ s))
           (if decide (pin_count_ fr = 1) then
              set_replacer
                (LRUReplacer.mk n (LRUReplacer.victim_queue (replacer_ s) ++ [f])
                                ({[f]} ∪ LRUReplacer.frame_in_replacer (replacer_ s))
                                Unlocked) s
            else s)).
Proof.
  intros Hwf Hl Hlk Hfr.
  pose proof (wf_replacer_mutex _ _ Hwf) as Hm.
  pose proof (wf_max_pages _ _ Hwf) as Hmax.
  assert (Hroom : 0 < pin_count_ fr ->
                  LRUReplacer.Unpin f (replacer_ s)
                  = Returns tt
                      (LRUReplacer.mk n (LRUReplacer.victim_queue (replacer_ s) ++ [f])
                         ({[f]} ∪ LRUReplacer.frame_in_replacer (replacer_ s)) Unlocked)).
  { intros Hpin.
    assert (Hout : f ∉ LRUReplacer.frame_in_replacer (replacer_ s)).
    { intros Hin. destruct (wf_evictable _ _ Hwf f Hin) as (fr' & Hfr' & Hzero).
      rewrite Hfr in Hfr'. injection Hfr' as <-. lia. }
    rewrite Unpin_admits, Hmax; [reflexivity|assumption..|].
    rewrite Hmax. eapply wf_room; [exact Hwf|by rewrite Hfr|assumption]. }
  destruct s as [n0 pages disk repl table free l]; simpl in *; subst l.
  unfold BPM.UnpinPageImpl; run_bpm.
  rewrite Hlk, Hfr. frames. simpl.
  destruct (decide (pin_count_ fr <= 0)) as [Hle|Hgt]; [reflexivity|].
  run_bpm. frames. simpl. rewrite list_insert_insert_eq.
  destruct (decide (pin_count_ fr - 1 = 0)) as [Hone|Hmore].
  - rewrite Hroom by lia. rewrite decide_True by lia. reflexivity.
  - rewrite decide_False by lia. reflexivity.
Qed.

(** Property X17.  Pin balance: [fetch_page] of a resident page followed by [unpin_page]
    of the same page puts the pin count back where it was; page table,
    free list and disk are untouched, and the dirty bit is the argument of
    the unpin. *)
Theorem fetch_unpin_balance n s page_id is_dirty f fr :
  well_formed n s ->
  latch_ s = Unlocked ->
  page_table_ s !! page_id = Some f ->
  frame_at f (pages_ s) = Some fr ->
  pin_count_ fr < INT_MAX ->
  exists s1 s2,
    BPM.FetchPageImpl page_id s = Returns (Some f) s1
    /\ BPM.UnpinPageImpl page_id is_dirty s1 = Returns true s2
    /\ frame_at f (pages_ s2) = Some (set_is_dirty is_dirty fr)
    /\ (forall g, g <> f -> frame_at g (pages_ s2) = frame_at g (pages_ s))
    /\ page_table_ s2 = page_table_ s
    /\ free_list_ s2 = free_list_ s
    /\ disk_manager_ s2 = disk_manager_ s
    /\ latch_ s2 = Unlocked.
Proof.
  intros Hwf Hl Hlk Hfr Hlt.
  pose proof (wf_pin_nonneg _ _ _ _ Hwf Hfr) as Hpin.
  assert (Hidle : idle s) by (split; [assumption|apply Hwf]).
  pose proof (fetch_hit s page_id f fr Hidle (wf_consistent _ _ Hwf) Hlk Hfr Hlt)
    as Hfetch.
  set (s1 := set_pages _ _) in Hfetch.
  assert (Hwf1 : well_formed n s1)
    by exact (FetchPageImpl_well_formed n s page_id _ s1 Hwf Hfetch).
  assert (Hfr1 : frame_at f (pages_ s1)
                 = Some (set_pin_count (pin_count_ fr + 1) fr)).
  { destruct s; simpl in *. apply frame_at_insert. by rewrite Hfr. }
  assert (Hlk1 : page_table_ s1 !! page_id = Some f) by (by destruct s).
  assert (Hl1 : latch_ s1 = Unlocked) by (by destruct s).
  pose proof (unpin_resident n s1 page_id is_dirty f _ Hwf1 Hl1 Hlk1 Hfr1)
    as Hunpin.
  simpl in Hunpin. rewrite decide_False in Hunpin by lia.
  do 2 eexists. split; [exact Hfetch|]. split; [exact Hunpin|].
  pose proof (frame_at_nonneg f (pages_ s) ltac:(by rewrite Hfr)) as Hf0.
  destruct s as [n0 pages disk repl table free l]; simpl in *.
  rewrite list_insert_insert_eq.
  split.
  { rewrite frame_at_insert by (by rewrite Hfr).
    destruct fr; unfold set_is_dirty; simpl. do 2 f_equal. lia. }
  split; [intros g Hg; by apply frame_at_insert_ne|].
  destruct (decide (pin_count_ fr + 1 = 1)); simpl; auto.
Qed.

Lemma for_each_flush_frame k : forall i n pages disk repl table free l,
  (i + k = length pages)%nat ->
  BPM.for_each BPM.flush_frame (seq i k) (mkBPM n pages disk repl table free l)
  = Returns tt
      (mkBPM n (take i pages ++ (flushed <$> drop i pages))
             (foldl flush_write disk (drop i pages)) repl table free l).
Proof.
  induction k as [|k IH]; intros i n pages disk repl table free l Hlen.
  - simpl. rewrite drop_ge by lia. simpl. rewrite app_nil_r, take_ge by lia.
    reflexivity.
  - destruct (lookup_lt_is_Some_2 pages i ltac:(lia)) as [p Hp].
    assert (Hfr : frame_at (Z.of_nat i) pages = Some p).
    { unfold frame_at. rewrite decide_True by lia. by rewrite Nat2Z.id. }
    rewrite (drop_S pages p i Hp). simpl.
    unfold bind at 1. unfold BPM.flush_frame. run_bpm. rewrite Hfr.
    unfold flushed at 1, flush_write at 2.
    destruct (decide (page_id_ p = INVALID_PAGE_ID)) as [Heq|Hne].
    + rewrite IH by lia. rewrite (take_S_r pages i p Hp), <- app_assoc. reflexivity.
    + run_bpm. rewrite Hfr. rewrite Nat2Z.id.
      rewrite IH by (rewrite length_insert; lia).
      rewrite drop_insert_lt by lia.
      rewrite take_insert_lt by lia.
      rewrite (take_S_r pages i p Hp).
      rewrite insert_app_r_alt by (rewrite length_take; lia).
      rewrite length_take, Nat.min_l, Nat.sub_diag by lia. simpl.
      rewrite <- app_assoc. reflexivity.
Qed.

Lemma flush_all_run s :
  length (pages_ s) = pool_size_ s ->
  BPM.FlushAllPagesImpl s
  = Returns tt
      (set_pages (flushed <$> pages_ s)
         (set_disk_manager (foldl flush_write (disk_manager_ s) (pages_ s)) s)).
Proof.
  destruct s as [n pages disk repl table free l]; simpl. intros Hlen.
  unfold BPM.FlushAllPagesImpl; run_bpm.
  rewrite for_each_flush_frame by (simpl; lia).
  rewrite take_0, drop_0. reflexivity.
Qed.

Lemma flush_write_calls pages : forall d,
  disk_calls (foldl flush_write d pages)
  = reverse ((fun p => WritePageCall (page_id_ p) (data_ p))
               <$> filter (fun p => page_id_ p <> INVALID_PAGE_ID) pages)
    ++ disk_calls d.
Proof.
  induction pages as [|p pages IH]; intros d; [reflexivity|].
  simpl. rewrite IH. unfold flush_write.
  destruct (decide (page_id_ p = INVALID_PAGE_ID)) as [Heq|Hne].
  - rewrite filter_cons_False by (intros H; by apply H). reflexivity.
  - rewrite filter_cons_True by assumption.
    rewrite fmap_cons, reverse_cons, <- app_assoc. reflexivity.
Qed.

(** Property X22.  After [flush_all_pages] no frame that holds a page is dirty, and the
    disk manager has received exactly one write per such frame, with the
    frame's page id and bytes, in index order. *)
Theorem FlushAllPagesImpl_clean s :
  length (pages_ s) = pool_size_ s ->
  exists s',
    BPM.FlushAllPagesImpl s = Returns tt s'
    /\ (forall f fr, frame_at f (pages_ s') = Some fr ->
                     page_id_ fr <> INVALID_PAGE_ID -> is_dirty_ fr = false)
    /\ disk_calls (disk_manager_ s')
       = reverse ((fun p => WritePageCall (page_id_ p) (data_ p))
                    <$> filter (fun p => page_id_ p <> INVALID_PAGE_ID) (pages_ s))
         ++ disk_calls (disk_manager_ s).
Proof.
  intros Hlen. eexists. split; [by apply flush_all_run|].
  destruct s as [n pages disk repl table free l]; simpl. split.
  - intros f fr Hfr Hvalid. apply frame_at_elem_of in Hfr.
    apply list_elem_of_fmap in Hfr as (p & -> & _).
    unfold flushed in *. by destruct (decide (page_id_ p = INVALID_PAGE_ID)).
  - apply flush_write_calls.
Qed.

End MoreEffects.

Section RoundTrip.

Implicit Types (s : BufferPoolManager) (f g : frame_id_t).

(** Property X11.  In a reachable pool the capacity guard of [Unpin] is never what stops
    a frame: a frame of the array that is not in the replacer is always
    admitted, at the tail of the sequence. *)
Theorem Unpin_admitted_in_reachable_pool (n : nat) s f :
  Z.of_nat n <= 2147483648 ->
  reachable n s ->
  is_Some (frame_at f (pages_ s)) ->
  f ∉ LRUReplacer.frame_in_replacer (replacer_ s) ->
  LRUReplacer.Unpin f (replacer_ s)
  = Returns tt
      (LRUReplacer.mk n (LRUReplacer.victim_queue (replacer_ s) ++ [f])
                      ({[f]} ∪ LRUReplacer.frame_in_replacer (replacer_ s))
                      Unlocked).
Proof.
  intros Hn Hreach Hf Hout.
  pose proof (well_formed_reachable n s Hn Hreach) as Hwf.
  rewrite Unpin_admits, (wf_max_pages _ _ Hwf);
    [reflexivity|apply Hwf|assumption|].
  rewrite (wf_max_pages _ _ Hwf). by eapply wf_room.
Qed.

(** Property X24.  A dirty page survives its eviction.  With no free frame, frame [f],
    holding the dirty page [p], is the next victim; [fetch_page q] evicts
    [p], writing it back first; after [unpin_page q], [fetch_page p]
    brings [p] back into a frame with the very bytes it had when it was
    evicted (provided the frame evicted for it does not itself hold
    another copy of [p]). *)
Theorem dirty_page_survives_eviction n s p q f rest fr :
  well_formed n s ->
  latch_ s = Unlocked ->
  free_list_ s = [] ->
  LRUReplacer.victim_queue (replacer_ s) = f :: rest ->
  frame_at f (pages_ s) = Some fr ->
  page_id_ fr = p ->
  is_dirty_ fr = true ->
  page_table_ s !! q = None ->
  q <> p ->
  (forall g fg, head rest = Some g -> frame_at g (pages_ s) = Some fg ->
                page_id_ fg <> p) ->
  exists s1 s2 s3 g,
    BPM.FetchPageImpl q s = Returns (Some f) s1
    /\ BPM.UnpinPageImpl q false s1 = Returns true s2
    /\ BPM.FetchPageImpl p s2 = Returns (Some g) s3
    /\ frame_at g (pages_ s3) = Some (mkPage (data_ fr) p 1 false).
Proof.
  intros Hwf Hl Hfree Hq Hfr Hp Hdirty Hlkq Hne Hnext.
  assert (Hidle : idle s) by (split; [assumption|apply Hwf]).
  pose proof (wf_consistent _ _ Hwf) as Hc.
  pose proof (frame_at_nonneg f (pages_ s) ltac:(by rewrite Hfr)) as Hf0.
  assert (Hchosen : chosen_frame s = Some f).
  { unfold chosen_frame. by rewrite Hfree, Hq. }
  (* first fetch: [p] is written back and [q] read into [f] *)
  pose proof (fetch_miss s q f fr Hidle Hc Hlkq Hchosen Hfr) as H1.
  cbv zeta in H1. rewrite Hdirty, Hp in H1.
  match type of H1 with _ = Returns _ ?x => set (s1 := x) in * end.
  pose proof (FetchPageImpl_well_formed n s q _ s1 Hwf H1) as Hwf1.
  assert (Hsize : pool_size_ s = n) by apply Hwf.
  (* unpin: [f] goes back to the replacer, behind [rest] *)
  assert (Hfr1 : frame_at f (pages_ s1)
                 = Some (mkPage (default zero_bytes
                                   (disk_pages (written p (data_ fr) (disk_manager_ s)) !! q))
                                q 1 false)).
  { subst s1; simpl. apply frame_at_insert. by rewrite Hfr. }
  assert (Hlk1 : page_table_ s1 !! q = Some f).
  { subst s1; simpl. apply lookup_insert_eq. }
  pose proof (unpin_resident n s1 q false f _ Hwf1 eq_refl Hlk1 Hfr1) as H2.
  simpl in H2.
  match type of H2 with _ = Returns _ ?x => set (s2 := x) in * end.
  pose proof (UnpinPageImpl_well_formed n s1 q false _ s2 Hwf1 H2) as Hwf2.
  (* second fetch *)
  destruct Hc as [Hnd Hiff]. rewrite Hq in Hnd.
  apply NoDup_cons in Hnd as [Hf Hnd].
  assert (Hqueue2 : LRUReplacer.victim_queue (replacer_ s2) = rest ++ [f]).
  { subst s2 s1; simpl. rewrite Hq.
    rewrite filter_cons_False by (intros H; by apply H).
    by rewrite filter_ne_not_elem_of. }
  assert (Hlk2 : page_table_ s2 !! p = None).
  { subst s2 s1; simpl. rewrite lookup_insert_ne by assumption.
    apply lookup_delete_eq. }
  assert (Hdisk2 : disk_pages (disk_manager_ s2) !! p = Some (data_ fr)).
  { subst s2 s1; simpl. apply lookup_insert_eq. }
  assert (Hidle2 : idle s2) by (split; [reflexivity|apply Hwf2]).
  assert (Hfree2 : free_list_ s2 = []).
  { subst s2 s1; simpl. by rewrite Hfree. }
  assert (Hg : exists g fg,
             chosen_frame s2 = Some g
             /\ frame_at g (pages_ s2) = Some fg
             /\ (is_dirty_ fg = true -> page_id_ fg <> p)).
  { unfold chosen_frame. rewrite Hfree2, Hqueue2.
    destruct rest as [|g rest'].
    - exists f. eexists. split; [reflexivity|].
      split; [subst s2 s1; simpl; rewrite list_insert_insert_eq;
              apply frame_at_insert; by rewrite Hfr|].
      simpl. discriminate.
    - assert (Hgf : g <> f) by (intros ->; apply Hf; left).
      assert (Hev : evictable g s) by (apply Hiff; rewrite Hq; right; left).
      destruct (wf_evictable _ _ Hwf g Hev) as (fg & Hfg & _).
      exists g, fg. split; [reflexivity|].
      split; [|intros _; by apply (Hnext g fg)].
      subst s2 s1; simpl. rewrite list_insert_insert_eq.
      by rewrite frame_at_insert_ne. }
  destruct Hg as (g & fg & Hchosen2 & Hfg2 & Hother).
  pose proof (fetch_miss s2 p g fg Hidle2 (wf_consistent _ _ Hwf2) Hlk2 Hchosen2 Hfg2)
    as H3.
  cbv zeta in H3.
  exists s1, s2. eexists. exists g.
  split; [exact H1|]. split; [exact H2|]. split; [exact H3|].
  cbn [pages_]. rewrite frame_at_insert by (by rewrite Hfg2).
  do 2 f_equal.
  destruct (is_dirty_ fg).
  - cbn [written disk_pages].
    rewrite lookup_insert_ne by (by apply Hother). by rewrite Hdisk2.
  - by rewrite Hdisk2.
Qed.

End RoundTrip.

(** ** The paths of the operations *)

Section Paths.

Implicit Types (s : BufferPoolManager) (f g : frame_id_t).

Lemma returns_latch_free s :
  (forall page_id r s', BPM.FetchPageImpl page_id s = Returns r s' -> latch_ s = Unlocked)
  /\ (forall page_id d r s',
         BPM.UnpinPageImpl page_id d s = Returns r s' -> latch_ s = Unlocked)
  /\ (forall page_id r s', BPM.FlushPageImpl page_id s = Returns r s' -> latch_ s = Unlocked)
  /\ (forall r s', BPM.NewPageImpl s = Returns r s' -> latch_ s = Unlocked)
  /\ (forall page_id r s', BPM.DeletePageImpl page_id s = Returns r s' -> latch_ s = Unlocked).
Proof.
  destruct (latch_ s) eqn:Hl; [by repeat split|].
  destruct (held_latch_blocks s Hl) as (Hf & Hu & Hfl & Hn & Hd).
  split; [|split; [|split; [|split]]]; intros.
  - by rewrite Hf in *.
  - by rewrite Hu in *.
  - by rewrite Hfl in *.
  - by rewrite Hn in *.
  - by rewrite Hd in *.
Qed.

Lemma wf_idle n s : well_formed n s -> latch_ s = Unlocked -> idle s.
Proof. intros Hwf Hl. split; [assumption|apply Hwf]. Qed.

Lemma chosen_frame_None s :
  chosen_frame s = None ->
  free_list_ s = [] /\ LRUReplacer.victim_queue (replacer_ s) = [].
Proof.
  unfold chosen_frame. destruct (free_list_ s); [|discriminate].
  destruct (LRUReplacer.victim_queue (replacer_ s)); [done|discriminate].
Qed.

(** The frame chosen in a well-formed pool exists; when it comes from the
    replacer (the free list being empty) it carries no pin. *)
Lemma chosen_frame_Some n s f :
  well_formed n s -> chosen_frame s = Some f ->
  exists fr, frame_at f (pages_ s) = Some fr
             /\ ((exists rest, free_list_ s = f :: rest)
                 \/ (free_list_ s = [] /\ evictable f s /\ pin_count_ fr = 0)).
Proof.
  intros Hwf. unfold chosen_frame.
  destruct (free_list_ s) as [|f0 rest] eqn:Hfree.
  - destruct (LRUReplacer.victim_queue (replacer_ s)) as [|f0 rest] eqn:Hq;
      [discriminate|]. intros [= ->].
    assert (Hev : evictable f s).
    { apply (proj2 (wf_consistent _ _ Hwf)). rewrite Hq. left. }
    destruct (wf_evictable _ _ Hwf f Hev) as (fr & Hfr & Hzero).
    exists fr. split; [assumption|]. right. auto.
  - intros [= ->].
    pose proof (wf_free_list _ _ Hwf) as Hall. rewrite Hfree in Hall.
    apply Forall_cons in Hall as [[fr Hfr] _].
    exists fr. split; [assumption|]. left. eauto.
Qed.

(** [fetch_page] returns along one of three paths. *)
Lemma FetchPageImpl_paths n s page_id r s' :
  well_formed n s ->
  BPM.FetchPageImpl page_id s = Returns r s' ->
  (exists f fr,
      page_table_ s !! page_id = Some f
      /\ frame_at f (pages_ s) = Some fr /\ pin_count_ fr < INT_MAX)
  \/ (page_table_ s !! page_id = None /\ exists f, chosen_frame s = Some f)
  \/ (page_table_ s !! page_id = None /\ chosen_frame s = None).
Proof.
  intros Hwf H.
  destruct (page_table_ s !! page_id) as [f|] eqn:Hlk.
  - left. destruct (wf_page_table _ _ Hwf _ _ Hlk) as [fr Hfr].
    exists f, fr. split; [reflexivity|]. split; [assumption|].
    destruct (decide (pin_count_ fr < INT_MAX)) as [|Hmax]; [assumption|].
    exfalso.
    pose proof (wf_replacer_mutex _ _ Hwf) as Hm.
    pose proof (wf_consistent _ _ Hwf) as Hc.
    pose proof (proj1 (returns_latch_free s) _ _ _ H) as Hl.
    destruct s as [n0 pages disk repl table free l]; simpl in *; subst l.
    unfold BPM.FetchPageImpl in H; run_bpm_in H.
    rewrite Hlk, (Pin_filter repl f Hm Hc) in H. run_bpm_in H.
    rewrite Hfr, decide_False in H by assumption. discriminate.
  - right. destruct (chosen_frame s); eauto.
Qed.

End Paths.

(** ** Coherence is kept when the callers keep to the contract *)

Section Coherence.

Implicit Types (s : BufferPoolManager) (f g c : frame_id_t).

Lemma coherent_not_free_and_resident s f page_id :
  coherent s -> f ∈ free_list_ s -> page_table_ s !! page_id = Some f -> False.
Proof.
  intros Hco Hfree Hlk.
  destruct (co_free_list _ Hco f Hfree) as (fr & Hfr & Hinv & _).
  destruct (co_page_table _ Hco _ _ Hlk) as (fr' & Hfr' & Hid).
  pose proof (co_allocated _ Hco _ _ Hlk) as Hrange.
  rewrite Hfr in Hfr'. injection Hfr' as <-.
  unfold INVALID_PAGE_ID in Hinv. lia.
Qed.

Lemma coherent_update s c frc x n' disk' r' table' free' l' :
  coherent s ->
  frame_at c (pages_ s) = Some frc ->
  0 <= next_page_id disk' ->
  (forall page_id g, table' !! page_id = Some g ->
                     0 <= page_id < next_page_id disk') ->
  (forall page_id g, table' !! page_id = Some g ->
                     (g = c /\ page_id_ x = page_id)
                     \/ (g <> c /\ page_table_ s !! page_id = Some g)) ->
  NoDup free' ->
  (forall g, g ∈ free' ->
             (g = c /\ page_id_ x = INVALID_PAGE_ID /\ pin_count_ x = 0)
             \/ (g <> c /\ g ∈ free_list_ s)) ->
  (forall g, g ∈ LRUReplacer.frame_in_replacer r' ->
             g ∈ free' \/ exists page_id, table' !! page_id = Some g) ->
  coherent (mkBPM n' (<[Z.to_nat c := x]> (pages_ s)) disk' r' table' free' l').
Proof.
  intros Hco Hc Hnext Hrange Htable Hnd Hfree Hset.
  pose proof (frame_at_nonneg c (pages_ s) ltac:(by rewrite Hc)) as Hc0.
  constructor; simpl; try assumption.
  - intros page_id g Hlk. destruct (Htable _ _ Hlk) as [[-> Hid]|[Hne Hlk']].
    + exists x. split; [apply frame_at_insert; by rewrite Hc|assumption].
    + rewrite frame_at_insert_ne by assumption. by apply (co_page_table _ Hco).
  - intros g Hg. destruct (Hfree g Hg) as [(-> & Hid & Hpin)|[Hne Hin]].
    + exists x. split; [apply frame_at_insert; by rewrite Hc|auto].
    + rewrite frame_at_insert_ne by assumption. by apply (co_free_list _ Hco).
Qed.

Lemma coherent_latch s l :
  coherent s -> coherent (set_latch l s).
Proof. intros [H1 H2 H3 H4 H5 H6]. destruct s. by constructor. Qed.

Lemma new_coherent (n : nat) :
  Z.of_nat n <= 2147483648 -> coherent (BPM.new n Disk.new).
Proof.
  intros Hn. destruct (new_pool_facts n Disk.new Hn) as (Hwf & Hfree & Htable & Hev & Hfr & _).
  constructor.
  - intros page_id f Hlk. rewrite Htable, lookup_empty in Hlk. discriminate.
  - intros page_id f Hlk. rewrite Htable, lookup_empty in Hlk. discriminate.
  - simpl. lia.
  - rewrite Hfree. apply NoDup_fmap; [apply Nat2Z.inj'|apply NoDup_seq].
  - intros f Hf. pose proof (wf_free_list _ _ Hwf) as Hall.
    rewrite Forall_forall in Hall. destruct (Hall f Hf) as [fr Hfr'].
    exists fr. split; [assumption|]. by rewrite (Hfr f fr Hfr').
  - intros f Hf. by apply Hev in Hf.
Qed.

(** A page installed in the chosen frame, as [FetchPageImpl] and
    [NewPageImpl] do. *)
Lemma coherent_install n s page_id f fr x disk' n' l' :
  well_formed n s -> coherent s ->
  page_table_ s !! page_id = None ->
  chosen_frame s = Some f ->
  frame_at f (pages_ s) = Some fr ->
  page_id_ x = page_id ->
  next_page_id (disk_manager_ s) <= next_page_id disk' ->
  0 <= page_id < next_page_id disk' ->
  coherent (mkBPM n' (<[Z.to_nat f := x]> (pages_ s)) disk'
                  (without f (replacer_ s))
                  (<[page_id := f]> (delete (page_id_ fr) (page_table_ s)))
                  (tail (free_list_ s)) l').
Proof.
  intros Hwf Hco Hlk Hch Hfr Hx Hmono Hrange.
  destruct (chosen_frame_Some n s f Hwf Hch) as (fr0 & Hfr0 & Hsrc).
  rewrite Hfr in Hfr0. injection Hfr0 as <-.
  assert (Hold : forall pid, page_table_ s !! pid = Some f -> pid = page_id_ fr).
  { intros pid Hpid. destruct (co_page_table _ Hco _ _ Hpid) as (fr' & Hfr' & Hid).
    rewrite Hfr in Hfr'. by injection Hfr' as <-. }
  pose proof (co_free_NoDup _ Hco) as Hnd.
  assert (Htail : forall g, g ∈ tail (free_list_ s) -> g <> f /\ g ∈ free_list_ s).
  { intros g Hg. unfold chosen_frame in Hch.
    destruct (free_list_ s) as [|f0 rest]; [by apply elem_of_nil in Hg|].
    injection Hch as ->. simpl in Hg. apply NoDup_cons in Hnd as [Hf _].
    split; [by intros ->|by right]. }
  apply (coherent_update _ f fr _ _ _ _ _ _ _ Hco Hfr); simpl.
  - pose proof (co_next_page_id _ Hco). lia.
  - intros pid g Hg.
    apply lookup_insert_Some in Hg as [[<- _]|[_ Hg]]; [assumption|].
    apply lookup_delete_Some in Hg as [_ Hg].
    pose proof (co_allocated _ Hco _ _ Hg). lia.
  - intros pid g Hg.
    apply lookup_insert_Some in Hg as [[<- <-]|[_ Hg]]; [by left|].
    apply lookup_delete_Some in Hg as [Hne Hg]. right. split; [|assumption].
    intros ->. apply Hne. symmetry. by apply Hold.
  - destruct (free_list_ s); [constructor|]. by apply NoDup_cons in Hnd as [_ Hnd].
  - intros g Hg. right. by apply Htail.
  - intros g Hg. apply elem_of_difference in Hg as [Hg Hgf].
    rewrite elem_of_singleton in Hgf.
    destruct (co_evictable _ Hco g Hg) as [Hfree|[pid Hpid]].
    + left. unfold chosen_frame in Hch.
      destruct (free_list_ s) as [|f0 rest]; [by apply elem_of_nil in Hfree|].
      injection Hch as ->. simpl.
      apply elem_of_cons in Hfree as [->|Hfree]; [contradiction|assumption].
    + right. exists pid. rewrite lookup_insert_ne by congruence.
      rewrite lookup_delete_ne; [assumption|].
      intros <-.
      destruct Hsrc as [[rest Hfree]|(Hfree & Hev & _)].
      * destruct (co_free_list _ Hco f) as (fr' & Hfr' & Hinv & _);
          [rewrite Hfree; left|].
        rewrite Hfr in Hfr'. injection Hfr' as <-.
        pose proof (co_allocated _ Hco _ _ Hpid) as Hr.
        unfold INVALID_PAGE_ID in Hinv. lia.
      * destruct (co_evictable _ Hco f Hev) as [Hin|[pid' Hpid']].
        -- rewrite Hfree in Hin. by apply elem_of_nil in Hin.
        -- pose proof (Hold _ Hpid') as Heq. subst pid'. congruence.
Qed.

Lemma FetchPageImpl_coherent n s page_id r s' :
  well_formed n s -> coherent s ->
  0 <= page_id < next_page_id (disk_manager_ s) ->
  BPM.FetchPageImpl page_id s = Returns r s' ->
  coherent s'.
Proof.
  intros Hwf Hco Hrange H.
  pose proof (proj1 (returns_latch_free s) _ _ _ H) as Hl.
  pose proof (wf_idle n s Hwf Hl) as Hidle.
  pose proof (wf_consistent _ _ Hwf) as Hc.
  destruct (FetchPageImpl_paths n s page_id r s' Hwf H)
    as [(f & fr & Hlk & Hfr & Hlt)|[(Hlk & f & Hch)|(Hlk & Hch)]].
  - rewrite (fetch_hit s page_id f fr Hidle Hc Hlk Hfr Hlt) in H.
    injection H as <- <-.
    destruct s as [n0 pages disk repl table free l]; simpl in *.
    apply (coherent_update _ f fr _ _ _ _ _ _ _ Hco Hfr); simpl.
    + apply Hco.
    + apply (co_allocated _ Hco).
    + intros pid g Hg. destruct (decide (g = f)) as [->|Hne]; [left|by right].
      split; [reflexivity|].
      destruct (co_page_table _ Hco _ _ Hg) as (fr' & Hfr' & Hid').
      simpl in Hfr'. rewrite Hfr in Hfr'. by injection Hfr' as <-.
    + apply Hco.
    + intros g Hg. right. split; [|assumption]. intros ->.
      by apply (coherent_not_free_and_resident _ f page_id Hco).
    + intros g Hg. apply elem_of_difference in Hg as [Hg _].
      by apply (co_evictable _ Hco).
  - destruct (chosen_frame_Some n s f Hwf Hch) as (fr & Hfr & _).
    rewrite (fetch_miss s page_id f fr Hidle Hc Hlk Hch Hfr) in H.
    injection H as <- <-.
    apply (coherent_install n s page_id f fr); try assumption; simpl.
    + reflexivity.
    + destruct (is_dirty_ fr); simpl; lia.
    + destruct (is_dirty_ fr); simpl; lia.
  - destruct (chosen_frame_None s Hch) as [Hfree Hq].
    rewrite (FetchPageImpl_exhausted s page_id Hidle Hlk Hfree Hq) in H.
    injection H as <- <-. by apply coherent_latch.
Qed.

(** A frame of a resident page rewritten with its page id kept; page
    table and free list as before. *)
Lemma coherent_touch s page_id f fr x n' disk' r' l' :
  coherent s ->
  page_table_ s !! page_id = Some f ->
  frame_at f (pages_ s) = Some fr ->
  page_id_ x = page_id_ fr ->
  next_page_id disk' = next_page_id (disk_manager_ s) ->
  (forall g, g ∈ LRUReplacer.frame_in_replacer r' ->
             g = f \/ g ∈ LRUReplacer.frame_in_replacer (replacer_ s)) ->
  coherent (mkBPM n' (<[Z.to_nat f := x]> (pages_ s)) disk' r'
                  (page_table_ s) (free_list_ s) l').
Proof.
  intros Hco Hlk Hfr Hx Hnext Hset.
  apply (coherent_update _ f fr _ _ _ _ _ _ _ Hco Hfr); simpl.
  - rewrite Hnext. apply Hco.
  - rewrite Hnext. apply (co_allocated _ Hco).
  - intros pid g Hg. destruct (decide (g = f)) as [->|Hne]; [left|by right].
    split; [reflexivity|]. rewrite Hx.
    destruct (co_page_table _ Hco _ _ Hg) as (fr' & Hfr' & Hid').
    rewrite Hfr in Hfr'. by injection Hfr' as <-.
  - apply Hco.
  - intros g Hg. right. split; [|assumption]. intros ->.
    by apply (coherent_not_free_and_resident _ f page_id Hco).
  - intros g Hg. destruct (Hset g Hg) as [->|Hin].
    + right. by exists page_id.
    + by apply (co_evictable _ Hco).
Qed.

Lemma UnpinPageImpl_coherent n s page_id is_dirty r s' :
  well_formed n s -> coherent s ->
  is_Some (page_table_ s !! page_id) ->
  BPM.UnpinPageImpl page_id is_dirty s = Returns r s' ->
  coherent s'.
Proof.
  intros Hwf Hco [f Hlk] H.
  pose proof (proj1 (proj2 (returns_latch_free s)) _ _ _ _ H) as Hl.
  destruct (wf_page_table _ _ Hwf _ _ Hlk) as [fr Hfr].
  rewrite (unpin_resident n s page_id is_dirty f fr Hwf Hl Hlk Hfr) in H.
  destruct s as [n0 pages disk repl table free l]; simpl in *.
  destruct (decide (pin_count_ fr <= 0)); injection H as <- <-.
  - apply (coherent_touch _ page_id f fr _ _ _ _ _ Hco Hlk Hfr); simpl; auto.
  - destruct (decide (pin_count_ fr = 1)); simpl;
      apply (coherent_touch _ page_id f fr _ _ _ _ _ Hco Hlk Hfr); simpl; auto.
    intros g Hg. apply elem_of_union in Hg as [Hg|Hg]; [left|by right].
    by apply elem_of_singleton in Hg.
Qed.

Lemma FlushPageImpl_coherent s page_id r s' :
  coherent s ->
  BPM.FlushPageImpl page_id s = Returns r s' ->
  coherent s'.
Proof.
  intros Hco H.
  pose proof (proj1 (proj2 (proj2 (returns_latch_free s))) _ _ _ H) as Hl.
  destruct (decide (page_id = INVALID_PAGE_ID)) as [Hinv|Hvalid].
  { rewrite FlushPageImpl_early_return in H by auto.
    injection H as <- <-. by apply coherent_latch. }
  destruct (page_table_ s !! page_id) as [f|] eqn:Hlk.
  - destruct (co_page_table _ Hco _ _ Hlk) as (fr & Hfr & _).
    rewrite (flush_run s page_id f fr Hl Hvalid Hlk Hfr) in H.
    injection H as <- <-.
    destruct s as [n0 pages disk repl table free l]; simpl in *.
    apply (coherent_touch _ page_id f fr _ _ _ _ _ Hco Hlk Hfr); simpl; auto.
  - rewrite FlushPageImpl_early_return in H by auto.
    injection H as <- <-. by apply coherent_latch.
Qed.

Lemma NewPageImpl_coherent n s r s' :
  well_formed n s -> coherent s ->
  BPM.NewPageImpl s = Returns r s' ->
  coherent s'.
Proof.
  intros Hwf Hco H.
  pose proof (proj1 (proj2 (proj2 (proj2 (returns_latch_free s)))) _ _ H) as Hl.
  pose proof (wf_idle n s Hwf Hl) as Hidle.
  pose proof (wf_consistent _ _ Hwf) as Hc.
  pose proof (co_next_page_id _ Hco) as Hnext.
  destruct (chosen_frame s) as [f|] eqn:Hch.
  - destruct (chosen_frame_Some n s f Hwf Hch) as (fr & Hfr & _).
    rewrite (new_page_run s f fr Hidle Hc Hch Hfr) in H.
    injection H as <- <-.
    apply (coherent_install n s _ f fr); try assumption; simpl.
    + destruct (page_table_ s !! next_page_id (disk_manager_ s)) as [g|] eqn:Hlk;
        [|reflexivity].
      pose proof (co_allocated _ Hco _ _ Hlk). lia.
    + reflexivity.
    + destruct (decide (page_id_ fr = INVALID_PAGE_ID)); simpl; lia.
    + destruct (decide (page_id_ fr = INVALID_PAGE_ID)); simpl; lia.
  - destruct (chosen_frame_None s Hch) as [Hfree Hq].
    rewrite (NewPageImpl_exhausted s Hidle Hfree Hq) in H.
    by injection H as <- <-.
Qed.

Lemma DeletePageImpl_coherent n s page_id r s' :
  well_formed n s -> coherent s ->
  BPM.DeletePageImpl page_id s = Returns r s' ->
  coherent s'.
Proof.
  intros Hwf Hco H.
  pose proof (proj2 (proj2 (proj2 (proj2 (returns_latch_free s)))) _ _ _ H) as Hl.
  destruct (page_table_ s !! page_id) as [f|] eqn:Hlk.
  - destruct (co_page_table _ Hco _ _ Hlk) as (fr & Hfr & Hid).
    destruct (decide (0 < pin_count_ fr)) as [Hpin|Hzero].
    { rewrite (delete_pinned_run s page_id f fr Hl Hlk Hfr Hpin) in H.
      by injection H as <- <-. }
    rewrite (delete_unpinned_run s page_id f fr Hl Hlk Hfr) in H by lia.
    injection H as <- <-.
    pose proof (wf_pin_nonneg _ _ _ _ Hwf Hfr) as Hnonneg.
    assert (Hnot_free : f ∉ free_list_ s).
    { intros Hin. by apply (coherent_not_free_and_resident _ f page_id Hco). }
    apply (coherent_update _ f fr _ _ _ _ _ _ _ Hco Hfr); simpl.
    + apply Hco.
    + intros pid g Hg. apply lookup_delete_Some in Hg as [_ Hg].
      by apply (co_allocated _ Hco _ _ Hg).
    + intros pid g Hg. apply lookup_delete_Some in Hg as [Hne Hg].
      right. split; [|assumption]. intros ->.
      destruct (co_page_table _ Hco _ _ Hg) as (fr' & Hfr' & Hid').
      rewrite Hfr in Hfr'. injection Hfr' as <-. congruence.
    + apply NoDup_app. split; [apply Hco|]. split; [|apply NoDup_singleton].
      intros g Hg ->%list_elem_of_singleton. contradiction.
    + intros g Hg. apply elem_of_app in Hg as [Hg|Hg].
      * right. split; [by intros ->|assumption].
      * apply list_elem_of_singleton in Hg as ->. left.
        split; [reflexivity|]. split; [reflexivity|lia].
    + intros g Hg. destruct (co_evictable _ Hco g Hg) as [Hin|[pid Hpid]].
      * left. apply elem_of_app. by left.
      * destruct (decide (pid = page_id)) as [->|Hne].
        -- left. rewrite Hlk in Hpid. injection Hpid as ->.
           apply elem_of_app. right. by apply list_elem_of_singleton.
        -- right. exists pid. by rewrite lookup_delete_ne.
  - rewrite (delete_absent_run s page_id Hl Hlk) in H. by injection H as <- <-.
Qed.

Lemma step_ok_step s s' : step_ok s s' -> step s s'.
Proof.
  intros [page_id r s0 s0' _ H|page_id d r s0 s0' _ H|page_id r s0 s0' H
         |r s0 s0' H|page_id r s0 s0' H].
  - by eapply step_fetch_page.
  - by eapply step_unpin_page.
  - by eapply step_flush_page.
  - by eapply step_new_page.
  - by eapply step_delete_page.
Qed.

Lemma reachable_ok_reachable n s : reachable_ok n s -> reachable n s.
Proof.
  induction 1 as [|s s' _ IH Hstep]; [constructor|].
  eapply reachable_step; [exact IH|by apply step_ok_step].
Qed.

Lemma step_ok_coherent n s s' :
  well_formed n s -> coherent s -> step_ok s s' -> coherent s'.
Proof.
  intros Hwf Hco Hstep. revert Hwf Hco.
  destruct Hstep as [page_id r s0 s0' Hr H|page_id d r s0 s0' Hr H|page_id r s0 s0' H
                    |r s0 s0' H|page_id r s0 s0' H]; intros Hwf Hco.
  - exact (FetchPageImpl_coherent n _ _ _ _ Hwf Hco Hr H).
  - exact (UnpinPageImpl_coherent n _ _ _ _ _ Hwf Hco Hr H).
  - exact (FlushPageImpl_coherent _ _ _ _ Hco H).
  - exact (NewPageImpl_coherent n _ _ _ Hwf Hco H).
  - exact (DeletePageImpl_coherent n _ _ _ _ Hwf Hco H).
Qed.

Lemma coherent_reachable_ok (n : nat) s :
  Z.of_nat n <= 2147483648 ->
  reachable_ok n s -> coherent s.
Proof.
  intros Hn. induction 1 as [|s s' Hreach IH Hstep].
  - by apply new_coherent.
  - apply (step_ok_coherent n s s'); [|assumption..].
    by apply well_formed_reachable, reachable_ok_reachable.
Qed.

End Coherence.

(** ** What a caller that holds a pin can rely on *)

Section Pinned.

Implicit Types (s : BufferPoolManager) (f g c : frame_id_t).




End Pinned.

(** ** The pools and replacers used as instances *)

Section InstanceFacts.

Lemma consistent_list_to_set n q m :
  NoDup q -> consistent (LRUReplacer.mk n q (list_to_set q) m).
Proof. intros Hnd. split; [assumption|]. intros f. simpl. apply elem_of_list_to_set. Qed.

Lemma NoDup_2_0 : NoDup [2; 0].
Proof.
  apply NoDup_cons. split; [|apply NoDup_singleton].
  intros Hin%list_elem_of_singleton. discriminate Hin.
Qed.

Lemma NoDup_0_1 : NoDup [0; 1].
Proof.
  apply NoDup_cons. split; [|apply NoDup_singleton].
  intros Hin%list_elem_of_singleton. discriminate Hin.
Qed.

Lemma replacer_three_consistent : consistent replacer_three.
Proof. apply consistent_list_to_set, NoDup_2_0. Qed.

Lemma replacer_full_consistent : consistent replacer_full.
Proof. apply consistent_list_to_set, NoDup_0_1. Qed.

Lemma one_frame_fits : Z.of_nat 1 <= 2147483648.
Proof. simpl. lia. Qed.

Lemma pool1_reachable_ok : reachable_ok 1 pool1.
Proof. rewrite <- pool1_new. constructor. Qed.

Lemma pool1_pinned_reachable_ok : reachable_ok 1 pool1_pinned.
Proof.
  eapply reachable_ok_step; [apply pool1_reachable_ok|].
  eapply step_ok_new_page, new_page_pool1.
Qed.

Lemma pool1_unpinned_reachable_ok : reachable_ok 1 pool1_unpinned.
Proof.
  eapply reachable_ok_step; [apply pool1_pinned_reachable_ok|].
  eapply step_ok_unpin_page; [|apply (unpin_page_pool1_pinned false)].
  by exists 0.
Qed.

Lemma pool1_well_formed : well_formed 1 pool1.
Proof. apply well_formed_reachable; [apply one_frame_fits|apply pool1_reachable]. Qed.

Lemma pool1_pinned_well_formed : well_formed 1 pool1_pinned.
Proof. apply well_formed_reachable; [apply one_frame_fits|apply pool1_pinned_reachable]. Qed.

Lemma pool1_unpinned_well_formed : well_formed 1 pool1_unpinned.
Proof. apply well_formed_reachable; [apply one_frame_fits|apply pool1_unpinned_reachable]. Qed.

Lemma pool1_unpinned_dirty_well_formed : well_formed 1 pool1_unpinned_dirty.
Proof.
  apply well_formed_reachable; [apply one_frame_fits|apply pool1_unpinned_dirty_reachable].
Qed.

End InstanceFacts.

(** ** The properties of the replacer, with an instance of each *)

Section ReplacerSummary.

Import LRUReplacer.

Ltac not_member H :=
  cbv [replacer_three replacer_full frame_in_replacer];
  rewrite elem_of_list_to_set; intros H;
  repeat (apply elem_of_cons in H as [H|H]; [discriminate H|]);
  by apply elem_of_nil in H.

Lemma Victim_head_example :
  replacer_mutex replacer_three = Unlocked
  /\ consistent replacer_three
  /\ exists v r',
       Victim replacer_three = Returns v r'
       /\ v = Some 2
       /\ victim_queue replacer_three = 2 :: victim_queue r'.
Proof.
  split; [reflexivity|]. split; [apply replacer_three_consistent|].
  destruct (Victim_head replacer_three eq_refl replacer_three_consistent)
    as (v & r' & HV & _ & _ & _ & Hsome).
  exists v, r'. split; [exact HV|].
  assert (Hv : v = Some 2) by (vm_compute in HV; congruence).
  split; [exact Hv|]. exact (proj2 (proj2 (proj2 (proj2 (Hsome 2 Hv))))).
Defined.

(** Property X2.  [Pin] takes the frame out of the sequence and out of the set and keeps
    the other frames in their order; on a frame that is not tracked it
    changes nothing. *)
Theorem Pin_removes r f :
  replacer_mutex r = Unlocked -> consistent r ->
  Pin f r = Returns tt
              (mk (max_pages r) (filter (fun x => x <> f) (victim_queue r))
                  (frame_in_replacer r ∖ {[f]}) Unlocked).
Proof. apply Pin_filter. Qed.

Lemma Pin_removes_example :
  replacer_mutex replacer_three = Unlocked
  /\ consistent replacer_three
  /\ Pin 2 replacer_three
     = Returns tt (mk 3 [0] (list_to_set [2; 0] ∖ {[2]}) Unlocked).
Proof.
  split; [reflexivity|]. split; [apply replacer_three_consistent|].
  exact (Pin_removes replacer_three 2 eq_refl replacer_three_consistent).
Defined.

(** Property X3.  The capacity guard of [Unpin]: once the sequence holds [max_pages]
    frames, a frame that is not tracked is dropped and the replacer stays
    as it was. *)
Theorem Unpin_full r f :
  replacer_mutex r = Unlocked ->
  f ∉ frame_in_replacer r ->
  (max_pages r <= length (victim_queue r))%nat ->
  Unpin f r = Returns tt r.
Proof. apply Unpin_drops. Qed.

Lemma Unpin_full_example :
  replacer_mutex replacer_full = Unlocked
  /\ (5 ∉ frame_in_replacer replacer_full)
  /\ (max_pages replacer_full <= length (victim_queue replacer_full))%nat
  /\ Unpin 5 replacer_full = Returns tt replacer_full.
Proof.
  assert (Hout : 5 ∉ frame_in_replacer replacer_full) by not_member H.
  assert (Hfull : (max_pages replacer_full <= length (victim_queue replacer_full))%nat)
    by (simpl; lia).
  split; [reflexivity|]. split; [exact Hout|]. split; [exact Hfull|].
  exact (Unpin_full replacer_full 5 eq_refl Hout Hfull).
Defined.

Lemma Unpin_Pin_round_trip_example :
  replacer_mutex replacer_three = Unlocked
  /\ consistent replacer_three
  /\ (1 ∉ frame_in_replacer replacer_three)
  /\ (length (victim_queue replacer_three) < max_pages replacer_three)%nat
  /\ exists r1, Unpin 1 replacer_three = Returns tt r1
                /\ Pin 1 r1 = Returns tt replacer_three.
Proof.
  assert (Hout : 1 ∉ frame_in_replacer replacer_three) by not_member H.
  assert (Hroom : (length (victim_queue replacer_three) < max_pages replacer_three)%nat)
    by (simpl; lia).
  split; [reflexivity|]. split; [apply replacer_three_consistent|].
  split; [exact Hout|]. split; [exact Hroom|].
  exact (Unpin_Pin_round_trip replacer_three 1 eq_refl replacer_three_consistent
           Hout Hroom).
Defined.

Lemma victims_in_unpin_order_example :
  replacer_mutex (new 3) = Unlocked
  /\ consistent (new 3)
  /\ NoDup [2; 0]
  /\ (forall f, f ∈ [2; 0] -> f ∉ frame_in_replacer (new 3))
  /\ (length (victim_queue (new 3)) + length [2; 0] <= max_pages (new 3))%nat
  /\ exists r1,
       unpin_each [2; 0] (new 3) = Returns tt r1
       /\ victims 2 r1 = Returns [2; 0] (mk 3 [] ∅ Unlocked).
Proof.
  assert (Hout : forall f, f ∈ [2; 0] -> f ∉ frame_in_replacer (new 3)).
  { intros f _ Hf. simpl in Hf. by apply elem_of_empty in Hf. }
  assert (Hcap : (length (victim_queue (new 3)) + length [2; 0] <= max_pages (new 3))%nat)
    by (simpl; lia).
  split; [reflexivity|]. split; [apply new_consistent|]. split; [apply NoDup_2_0|].
  split; [exact Hout|]. split; [exact Hcap|].
  exact (victims_in_unpin_order (new 3) [2; 0] eq_refl (new_consistent 3) NoDup_2_0
           Hout Hcap).
Defined.

Lemma Size_counts_members_example :
  replacer_mutex replacer_three = Unlocked
  /\ consistent replacer_three
  /\ Size replacer_three
     = Returns (size (frame_in_replacer replacer_three)) replacer_three.
Proof.
  split; [reflexivity|]. split; [apply replacer_three_consistent|].
  exact (Size_counts_members replacer_three eq_refl replacer_three_consistent).
Defined.

Lemma replacer_calls_release_mutex_example :
  replacer_mutex replacer_three = Unlocked
  /\ exists r', Unpin 1 replacer_three = Returns tt r'
                /\ replacer_mutex r' = Unlocked
                /\ max_pages r' = max_pages replacer_three.
Proof.
  split; [reflexivity|].
  exact (proj1 (proj2 (proj2 (replacer_calls_release_mutex replacer_three 1 eq_refl)))).
Defined.

End ReplacerSummary.

(** ** The properties of the buffer pool manager, with an instance of each *)

Section PoolSummary.

Implicit Types (s : BufferPoolManager) (f g : frame_id_t).

(** Property X8.  The constructor builds a well-formed pool: every frame is empty and on
    the free list, in index order, and nothing is resident or evictable. *)
Theorem new_well_formed (n : nat) (disk : DiskManager) :
  Z.of_nat n <= 2147483648 ->
  well_formed n (BPM.new n disk)
  /\ free_list_ (BPM.new n disk) = Z.of_nat <$> seq 0 n
  /\ page_table_ (BPM.new n disk) = ∅
  /\ (forall f, ~ evictable f (BPM.new n disk))
  /\ (forall f fr, frame_at f (pages_ (BPM.new n disk)) = Some fr -> fr = new_Page)
  /\ idle (BPM.new n disk).
Proof. apply new_pool_facts. Qed.

Lemma new_well_formed_example :
  Z.of_nat 1 <= 2147483648
  /\ well_formed 1 (BPM.new 1 Disk.new)
  /\ free_list_ (BPM.new 1 Disk.new) = Z.of_nat <$> seq 0 1.
Proof.
  split; [exact one_frame_fits|].
  split; [exact (proj1 (new_well_formed 1 Disk.new one_frame_fits))|].
  exact (proj1 (proj2 (new_well_formed 1 Disk.new one_frame_fits))).
Defined.

(** Property X9.  Every state a pool can be in between operations is well formed. *)
Theorem reachable_well_formed (n : nat) s :
  Z.of_nat n <= 2147483648 ->
  reachable n s -> well_formed n s.
Proof. apply well_formed_reachable. Qed.

Lemma reachable_well_formed_example :
  Z.of_nat 1 <= 2147483648
  /\ reachable 1 pool1_deleted
  /\ well_formed 1 pool1_deleted.
Proof.
  split; [exact one_frame_fits|]. split; [exact pool1_deleted_reachable|].
  exact (reachable_well_formed 1 pool1_deleted one_frame_fits pool1_deleted_reachable).
Defined.

Lemma victim_is_unpinned_example :
  Z.of_nat 1 <= 2147483648
  /\ reachable 1 pool1_unpinned
  /\ LRUReplacer.Victim (replacer_ pool1_unpinned)
     = Returns (Some 0) (LRUReplacer.mk 1 [] (list_to_set [0] ∖ {[0]}) Unlocked)
  /\ exists fr, frame_at 0 (pages_ pool1_unpinned) = Some fr /\ pin_count_ fr = 0.
Proof.
  split; [exact one_frame_fits|]. split; [exact pool1_unpinned_reachable|].
  split; [reflexivity|].
  exact (victim_is_unpinned 1 pool1_unpinned 0 _ one_frame_fits
           pool1_unpinned_reachable eq_refl).
Defined.

Lemma Unpin_admitted_in_reachable_pool_example :
  Z.of_nat 1 <= 2147483648
  /\ reachable 1 pool1_pinned
  /\ is_Some (frame_at 0 (pages_ pool1_pinned))
  /\ (0 ∉ LRUReplacer.frame_in_replacer (replacer_ pool1_pinned))
  /\ LRUReplacer.Unpin 0 (replacer_ pool1_pinned)
     = Returns tt (LRUReplacer.mk 1 [0] ({[0]} ∪ list_to_set []) Unlocked).
Proof.
  assert (Hsome : is_Some (frame_at 0 (pages_ pool1_pinned)))
    by (eexists; reflexivity).
  assert (Hout : 0 ∉ LRUReplacer.frame_in_replacer (replacer_ pool1_pinned)).
  { intros Hin. simpl in Hin. by apply elem_of_empty in Hin. }
  split; [exact one_frame_fits|]. split; [exact pool1_pinned_reachable|].
  split; [exact Hsome|]. split; [exact Hout|].
  exact (Unpin_admitted_in_reachable_pool 1 pool1_pinned 0 one_frame_fits
           pool1_pinned_reachable Hsome Hout).
Defined.

(** Property X12.  [fetch_page] of a resident page: the frame comes back with one more
    pin and is taken out of the replacer; the disk manager is not called
    and page table, free list and every other frame stay as they were. *)
Theorem FetchPageImpl_hit s page_id f fr :
  idle s -> consistent (replacer_ s) ->
  page_table_ s !! page_id = Some f ->
  frame_at f (pages_ s) = Some fr ->
  pin_count_ fr < INT_MAX ->
  BPM.FetchPageImpl page_id s
  = Returns (Some f)
      (set_pages (<[Z.to_nat f := set_pin_count (pin_count_ fr + 1) fr]> (pages_ s))
         (set_replacer (without f (replacer_ s)) s)).
Proof. apply fetch_hit. Qed.

Lemma FetchPageImpl_hit_example :
  idle pool1_pinned
  /\ consistent (replacer_ pool1_pinned)
  /\ page_table_ pool1_pinned !! 0 = Some 0
  /\ frame_at 0 (pages_ pool1_pinned) = Some (mkPage zero_bytes 0 1 false)
  /\ 1 < INT_MAX
  /\ BPM.FetchPageImpl 0 pool1_pinned = Returns (Some 0) pool1_pinned_twice.
Proof.
  assert (Hidle : idle pool1_pinned) by (split; reflexivity).
  pose proof (wf_consistent _ _ pool1_pinned_well_formed) as Hc.
  split; [exact Hidle|]. split; [exact Hc|]. do 3 (split; [reflexivity|]).
  exact (eq_trans
           (FetchPageImpl_hit pool1_pinned 0 0 (mkPage zero_bytes 0 1 false)
              Hidle Hc eq_refl eq_refl eq_refl)
           ltac:(vm_compute; reflexivity)).
Defined.

(** Property X13.  [fetch_page] of a page that is not resident, when a frame can be had:
    the frame is the head of the free list if the free list is not empty,
    whatever the replacer holds, and the head of the replacer otherwise.
    The old occupant is written to disk first if and only if its dirty bit
    is set; then the page is read from disk into the frame, which ends up
    pinned once and clean, mapped in the page table in place of the old
    occupant, and out of the replacer. *)
Theorem FetchPageImpl_miss s page_id f fr :
  idle s -> consistent (replacer_ s) ->
  page_table_ s !! page_id = None ->
  chosen_frame s = Some f ->
  frame_at f (pages_ s) = Some fr ->
  let disk1 := if is_dirty_ fr
               then written (page_id_ fr) (data_ fr) (disk_manager_ s)
               else disk_manager_ s in
  BPM.FetchPageImpl page_id s
  = Returns (Some f)
      (mkBPM (pool_size_ s)
             (<[Z.to_nat f := mkPage (default zero_bytes (disk_pages disk1 !! page_id))
                                     page_id 1 false]> (pages_ s))
             (mkDisk (disk_pages disk1) (next_page_id disk1)
                     (ReadPageCall page_id :: disk_calls disk1))
             (without f (replacer_ s))
             (<[page_id := f]> (delete (page_id_ fr) (page_table_ s)))
             (tail (free_list_ s))
             Unlocked).
Proof. apply fetch_miss. Qed.

Lemma FetchPageImpl_miss_example :
  idle pool1_unpinned
  /\ consistent (replacer_ pool1_unpinned)
  /\ page_table_ pool1_unpinned !! 5 = None
  /\ chosen_frame pool1_unpinned = Some 0
  /\ frame_at 0 (pages_ pool1_unpinned) = Some (mkPage zero_bytes 0 0 false)
  /\ BPM.FetchPageImpl 5 pool1_unpinned = Returns (Some 0) pool1_refetched.
Proof.
  assert (Hidle : idle pool1_unpinned) by (split; reflexivity).
  pose proof (wf_consistent _ _ pool1_unpinned_well_formed) as Hc.
  split; [exact Hidle|]. split; [exact Hc|]. do 3 (split; [reflexivity|]).
  exact (eq_trans
           (FetchPageImpl_miss pool1_unpinned 5 0 (mkPage zero_bytes 0 0 false)
              Hidle Hc eq_refl eq_refl eq_refl)
           ltac:(vm_compute; reflexivity)).
Defined.

(** Property X14.  [new_page] when a frame can be had: the frame is chosen as in
    [fetch_page]; the new page id is the one the disk manager hands out;
    the old occupant, if the frame has one, is written to disk whatever
    its dirty bit; the frame ends up zeroed, pinned once and clean, mapped
    in the page table in place of the old occupant, and out of the
    replacer. *)
Theorem NewPageImpl_success s f fr :
  idle s -> consistent (replacer_ s) ->
  chosen_frame s = Some f ->
  frame_at f (pages_ s) = Some fr ->
  let id := next_page_id (disk_manager_ s) in
  let disk1 := mkDisk (disk_pages (disk_manager_ s)) (id + 1)
                      (AllocatePageCall id :: disk_calls (disk_manager_ s)) in
  let disk2 := if decide (page_id_ fr = INVALID_PAGE_ID) then disk1
               else written (page_id_ fr) (data_ fr) disk1 in
  BPM.NewPageImpl s
  = Returns (Some (id, f))
      (mkBPM (pool_size_ s)
             (<[Z.to_nat f := mkPage zero_bytes id 1 false]> (pages_ s))
             disk2
             (without f (replacer_ s))
             (<[id := f]> (delete (page_id_ fr) (page_table_ s)))
             (tail (free_list_ s))
             Unlocked).
Proof. apply new_page_run. Qed.

Lemma NewPageImpl_success_example :
  idle pool1
  /\ consistent (replacer_ pool1)
  /\ chosen_frame pool1 = Some 0
  /\ frame_at 0 (pages_ pool1) = Some new_Page
  /\ BPM.NewPageImpl pool1 = Returns (Some (0, 0)) pool1_pinned.
Proof.
  assert (Hidle : idle pool1) by (split; reflexivity).
  pose proof (wf_consistent _ _ pool1_well_formed) as Hc.
  split; [exact Hidle|]. split; [exact Hc|]. do 2 (split; [reflexivity|]).
  exact (eq_trans
           (NewPageImpl_success pool1 0 new_Page Hidle Hc eq_refl eq_refl)
           ltac:(vm_compute; reflexivity)).
Defined.

(** Property X15.  [new_page] when no frame can be had returns [nullptr]
    and leaves the pool exactly as it was: no page id is allocated on disk
    and the latch is released. *)
Theorem NewPageImpl_none s :
  idle s ->
  chosen_frame s = None ->
  BPM.NewPageImpl s = Returns None s.
Proof.
  intros Hidle Hch. destruct (chosen_frame_None s Hch) as [Hfree Hq].
  by apply NewPageImpl_exhausted.
Qed.

Lemma NewPageImpl_none_example :
  idle pool1_pinned
  /\ chosen_frame pool1_pinned = None
  /\ BPM.NewPageImpl pool1_pinned = Returns None pool1_pinned.
Proof.
  assert (Hidle : idle pool1_pinned) by (split; reflexivity).
  split; [exact Hidle|]. split; [reflexivity|].
  exact (NewPageImpl_none pool1_pinned Hidle eq_refl).
Defined.

(** Property X16.  [unpin_page] of a resident page.  The dirty bit of the frame becomes
    the argument in every case.  With no pin on the frame the call returns
    [false] and changes nothing else.  With a pin it returns [true] and
    the pin count goes down by one; when that was the last pin the frame
    goes to the tail of the replacer, which always has room for it. *)
Theorem UnpinPageImpl_resident n s page_id is_dirty f fr :
  well_formed n s ->
  latch_ s = Unlocked ->
  page_table_ s !! page_id = Some f ->
  frame_at f (pages_ s) = Some fr ->
  BPM.UnpinPageImpl page_id is_dirty s
  = if decide (pin_count_ fr <= 0) then
      Returns false
        (set_pages (<[Z.to_nat f := set_is_dirty is_dirty fr]> (pages_ s)) s)
    else
      Returns true
        (set_pages
           (<[Z.to_nat f := mkPage (data_ fr) (page_id_ fr) (pin_count_ fr - 1) is_dirty]>
              (pages_ s))
           (if decide (pin_count_ fr = 1) then
              set_replacer
                (LRUReplacer.mk n (LRUReplacer.victim_queue (replacer_ s) ++ [f])
                                ({[f]} ∪ LRUReplacer.frame_in_replacer (replacer_ s))
                                Unlocked) s
            else s)).
Proof. apply unpin_resident. Qed.

Lemma UnpinPageImpl_resident_example :
  well_formed 1 pool1_pinned
  /\ latch_ pool1_pinned = Unlocked
  /\ page_table_ pool1_pinned !! 0 = Some 0
  /\ frame_at 0 (pages_ pool1_pinned) = Some (mkPage zero_bytes 0 1 false)
  /\ BPM.UnpinPageImpl 0 true pool1_pinned = Returns true pool1_unpinned_dirty.
Proof.
  split; [exact pool1_pinned_well_formed|]. do 3 (split; [reflexivity|]).
  exact (eq_trans
           (UnpinPageImpl_resident 1 pool1_pinned 0 true 0 (mkPage zero_bytes 0 1 false)
              pool1_pinned_well_formed eq_refl eq_refl eq_refl)
           ltac:(vm_compute; reflexivity)).
Defined.

Lemma fetch_unpin_balance_example :
  well_formed 1 pool1_pinned
  /\ latch_ pool1_pinned = Unlocked
  /\ page_table_ pool1_pinned !! 0 = Some 0
  /\ frame_at 0 (pages_ pool1_pinned) = Some (mkPage zero_bytes 0 1 false)
  /\ 1 < INT_MAX
  /\ exists s1 s2,
       BPM.FetchPageImpl 0 pool1_pinned = Returns (Some 0) s1
       /\ BPM.UnpinPageImpl 0 false s1 = Returns true s2
       /\ frame_at 0 (pages_ s2) = Some (mkPage zero_bytes 0 1 false).
Proof.
  split; [exact pool1_pinned_well_formed|]. do 4 (split; [reflexivity|]).
  destruct (fetch_unpin_balance 1 pool1_pinned 0 false 0 (mkPage zero_bytes 0 1 false)
              pool1_pinned_well_formed eq_refl eq_refl eq_refl eq_refl)
    as (s1 & s2 & H1 & H2 & H3 & _).
  exists s1, s2. split; [exact H1|]. split; [exact H2|exact H3].
Defined.

(** Property X18.  [flush_page] of a resident page with a valid id: the bytes of the frame
    are written to disk whatever the dirty bit, the dirty bit is cleared,
    and pin count, page table, replacer and latch are as before. *)
Theorem FlushPageImpl_resident s page_id f fr :
  latch_ s = Unlocked ->
  page_id <> INVALID_PAGE_ID ->
  page_table_ s !! page_id = Some f ->
  frame_at f (pages_ s) = Some fr ->
  BPM.FlushPageImpl page_id s
  = Returns true
      (set_pages (<[Z.to_nat f := set_is_dirty false fr]> (pages_ s))
         (set_disk_manager (written page_id (data_ fr) (disk_manager_ s)) s)).
Proof. apply flush_run. Qed.

Lemma FlushPageImpl_resident_example :
  latch_ pool1_unpinned_dirty = Unlocked
  /\ 0 <> INVALID_PAGE_ID
  /\ page_table_ pool1_unpinned_dirty !! 0 = Some 0
  /\ frame_at 0 (pages_ pool1_unpinned_dirty) = Some (mkPage zero_bytes 0 0 true)
  /\ BPM.FlushPageImpl 0 pool1_unpinned_dirty
     = Returns true
         (one_frame (mkPage zero_bytes 0 0 false)
                    (written 0 zero_bytes disk_one_allocated)
                    [0] {[0 := 0]} [] Unlocked).
Proof.
  assert (Hvalid : 0 <> INVALID_PAGE_ID) by discriminate.
  split; [reflexivity|]. split; [exact Hvalid|]. do 2 (split; [reflexivity|]).
  exact (FlushPageImpl_resident pool1_unpinned_dirty 0 0 (mkPage zero_bytes 0 0 true)
           eq_refl Hvalid eq_refl eq_refl).
Defined.

(** Property X19.  [delete_page] of a resident page that is pinned returns [false] and
    leaves the pool exactly as it was; nothing is deallocated. *)
Theorem DeletePageImpl_pinned s page_id f fr :
  latch_ s = Unlocked ->
  page_table_ s !! page_id = Some f ->
  frame_at f (pages_ s) = Some fr ->
  0 < pin_count_ fr ->
  BPM.DeletePageImpl page_id s = Returns false s.
Proof. apply delete_pinned_run. Qed.

Lemma DeletePageImpl_pinned_example :
  latch_ pool1_pinned = Unlocked
  /\ page_table_ pool1_pinned !! 0 = Some 0
  /\ frame_at 0 (pages_ pool1_pinned) = Some (mkPage zero_bytes 0 1 false)
  /\ 0 < 1
  /\ BPM.DeletePageImpl 0 pool1_pinned = Returns false pool1_pinned.
Proof.
  do 4 (split; [reflexivity|]).
  exact (DeletePageImpl_pinned pool1_pinned 0 0 (mkPage zero_bytes 0 1 false)
           eq_refl eq_refl eq_refl eq_refl).
Defined.

(** Property X20.  [delete_page] of a resident page that is not pinned returns [true]:
    the page is deallocated on disk, its page-table entry is erased, the
    frame goes to the tail of the free list with its page id invalid and
    its dirty bit clear; bytes, pin count and the replacer are untouched,
    and nothing is written to disk even if the page was dirty. *)
Theorem DeletePageImpl_unpinned s page_id f fr :
  latch_ s = Unlocked ->
  page_table_ s !! page_id = Some f ->
  frame_at f (pages_ s) = Some fr ->
  pin_count_ fr <= 0 ->
  BPM.DeletePageImpl page_id s
  = Returns true
      (mkBPM (pool_size_ s)
             (<[Z.to_nat f := mkPage (data_ fr) INVALID_PAGE_ID (pin_count_ fr) false]>
                (pages_ s))
             (mkDisk (disk_pages (disk_manager_ s)) (next_page_id (disk_manager_ s))
                     (DeallocatePageCall page_id :: disk_calls (disk_manager_ s)))
             (replacer_ s)
             (delete page_id (page_table_ s))
             (free_list_ s ++ [f])
             Unlocked).
Proof. apply delete_unpinned_run. Qed.

Lemma DeletePageImpl_unpinned_example :
  latch_ pool1_unpinned = Unlocked
  /\ page_table_ pool1_unpinned !! 0 = Some 0
  /\ frame_at 0 (pages_ pool1_unpinned) = Some (mkPage zero_bytes 0 0 false)
  /\ 0 <= 0
  /\ BPM.DeletePageImpl 0 pool1_unpinned = Returns true pool1_deleted.
Proof.
  assert (Hle : 0 <= 0) by discriminate.
  do 3 (split; [reflexivity|]). split; [exact Hle|].
  exact (eq_trans
           (DeletePageImpl_unpinned pool1_unpinned 0 0 (mkPage zero_bytes 0 0 false)
              eq_refl eq_refl eq_refl Hle)
           ltac:(vm_compute; reflexivity)).
Defined.

(** Property X21.  [flush_all_pages] writes every frame that holds a page to disk, in
    index order, whatever its dirty bit, and clears its dirty bit; frames
    with the invalid page id are skipped, dirty bit included.  It does not
    take the latch: it runs the same whether the latch is free or held,
    and leaves latch, page table, free list and replacer alone. *)
Theorem FlushAllPagesImpl_flushes s :
  length (pages_ s) = pool_size_ s ->
  BPM.FlushAllPagesImpl s
  = Returns tt
      (set_pages (flushed <$> pages_ s)
         (set_disk_manager (foldl flush_write (disk_manager_ s) (pages_ s)) s)).
Proof. apply flush_all_run. Qed.

Lemma FlushAllPagesImpl_flushes_example :
  length (pages_ pool1_unpinned_dirty) = pool_size_ pool1_unpinned_dirty
  /\ BPM.FlushAllPagesImpl pool1_unpinned_dirty
     = Returns tt
         (one_frame (mkPage zero_bytes 0 0 false)
                    (written 0 zero_bytes disk_one_allocated)
                    [0] {[0 := 0]} [] Unlocked).
Proof.
  split; [reflexivity|].
  exact (FlushAllPagesImpl_flushes pool1_unpinned_dirty eq_refl).
Defined.

Lemma FlushAllPagesImpl_clean_example :
  length (pages_ pool1_unpinned_dirty) = pool_size_ pool1_unpinned_dirty
  /\ exists s',
       BPM.FlushAllPagesImpl pool1_unpinned_dirty = Returns tt s'
       /\ disk_calls (disk_manager_ s')
          = [WritePageCall 0 zero_bytes; AllocatePageCall 0].
Proof.
  split; [reflexivity|].
  destruct (FlushAllPagesImpl_clean pool1_unpinned_dirty eq_refl) as (s' & H1 & _ & H3).
  exists s'. split; [exact H1|exact H3].
Defined.

(** Property X23.  [unpin_page], [new_page] and [delete_page] release the
    latch on every path: whenever one of them returns, the latch is
    free. *)
Theorem latch_released_on_return s s' :
  (forall page_id is_dirty r,
      BPM.UnpinPageImpl page_id is_dirty s = Returns r s' -> latch_ s' = Unlocked)
  /\ (forall r, BPM.NewPageImpl s = Returns r s' -> latch_ s' = Unlocked)
  /\ (forall page_id r,
         BPM.DeletePageImpl page_id s = Returns r s' -> latch_ s' = Unlocked).
Proof. apply releasing_operations. Qed.

Lemma latch_released_on_return_example :
  BPM.NewPageImpl pool1 = Returns (Some (0, 0)) pool1_pinned
  /\ latch_ pool1_pinned = Unlocked.
Proof.
  split; [exact new_page_pool1|].
  exact (proj1 (proj2 (latch_released_on_return pool1 pool1_pinned))
           (Some (0, 0)) new_page_pool1).
Defined.

Lemma dirty_page_survives_eviction_example :
  well_formed 1 pool1_unpinned_dirty
  /\ latch_ pool1_unpinned_dirty = Unlocked
  /\ free_list_ pool1_unpinned_dirty = []
  /\ LRUReplacer.victim_queue (replacer_ pool1_unpinned_dirty) = [0]
  /\ frame_at 0 (pages_ pool1_unpinned_dirty) = Some (mkPage zero_bytes 0 0 true)
  /\ page_table_ pool1_unpinned_dirty !! 5 = None
  /\ 5 <> 0
  /\ exists s1 s2 s3 g,
       BPM.FetchPageImpl 5 pool1_unpinned_dirty = Returns (Some 0) s1
       /\ BPM.UnpinPageImpl 5 false s1 = Returns true s2
       /\ BPM.FetchPageImpl 0 s2 = Returns (Some g) s3
       /\ frame_at g (pages_ s3) = Some (mkPage zero_bytes 0 1 false).
Proof.
  assert (Hne : 5 <> 0) by discriminate.
  assert (Hnext : forall g fg, head (@nil Z) = Some g ->
                    frame_at g (pages_ pool1_unpinned_dirty) = Some fg ->
                    page_id_ fg <> 0) by discriminate.
  split; [exact pool1_unpinned_dirty_well_formed|]. do 5 (split; [reflexivity|]).
  split; [exact Hne|].
  exact (dirty_page_survives_eviction 1 pool1_unpinned_dirty 0 5 0 []
           (mkPage zero_bytes 0 0 true) pool1_unpinned_dirty_well_formed
           eq_refl eq_refl eq_refl eq_refl eq_refl eq_refl eq_refl Hne Hnext).
Defined.

(** Property X25.  When the callers keep to the contract (fetch only page
    ids that were allocated, unpin only resident pages), every state
    between operations is coherent: a page-table entry leads to a frame
    that holds that very page, only allocated ids are resident, the free
    list holds distinct, empty, unpinned frames, and every frame in the
    replacer is resident or on the free list. *)
Theorem reachable_ok_coherent (n : nat) s :
  Z.of_nat n <= 2147483648 ->
  reachable_ok n s -> coherent s.
Proof. apply coherent_reachable_ok. Qed.

Lemma reachable_ok_coherent_example :
  Z.of_nat 1 <= 2147483648
  /\ reachable_ok 1 pool1_unpinned
  /\ coherent pool1_unpinned.
Proof.
  split; [exact one_frame_fits|]. split; [exact pool1_unpinned_reachable_ok|].
  exact (reachable_ok_coherent 1 pool1_unpinned one_frame_fits
           pool1_unpinned_reachable_ok).
Defined.

(** Property X26.  When the callers keep to the contract, no frame serves
    two pages and no page is served by a frame that claims another: two
    page-table entries with the same frame are the same entry, the frame
    of an entry carries the entry's page id, and a frame on the free list
    is not the frame of any entry. *)
Theorem no_frame_serves_two_pages (n : nat) s :
  Z.of_nat n <= 2147483648 ->
  reachable_ok n s ->
  (forall p1 p2 f,
      page_table_ s !! p1 = Some f -> page_table_ s !! p2 = Some f -> p1 = p2)
  /\ (forall p f, page_table_ s !! p = Some f ->
                  exists fr, frame_at f (pages_ s) = Some fr /\ page_id_ fr = p)
  /\ (forall p f, f ∈ free_list_ s -> page_table_ s !! p <> Some f).
Proof.
  intros Hn Hreach. pose proof (coherent_reachable_ok n s Hn Hreach) as Hco.
  split; [|split].
  - intros p1 p2 f H1 H2.
    destruct (co_page_table _ Hco _ _ H1) as (fr1 & Hfr1 & Hid1).
    destruct (co_page_table _ Hco _ _ H2) as (fr2 & Hfr2 & Hid2).
    rewrite Hfr1 in Hfr2. injection Hfr2 as <-. congruence.
  - apply (co_page_table _ Hco).
  - intros p f Hfree Hlk. by apply (coherent_not_free_and_resident s f p Hco).
Qed.

Lemma no_frame_serves_two_pages_example :
  Z.of_nat 1 <= 2147483648
  /\ reachable_ok 1 pool1_unpinned
  /\ exists fr, frame_at 0 (pages_ pool1_unpinned) = Some fr /\ page_id_ fr = 0.
Proof.
  split; [exact one_frame_fits|]. split; [exact pool1_unpinned_reachable_ok|].
  exact (proj1 (proj2 (no_frame_serves_two_pages 1 pool1_unpinned one_frame_fits
                         pool1_unpinned_reachable_ok)) 0 0 eq_refl).
Defined.



End PoolSummary.
